(** * Field matching core of the form filler (src/app.py)

    A shallow embedding of the canonical vocabulary, key inference,
    value resolution, phone normalisation and the fill loop of
    [src/app.py], followed by the properties established about them.

    A Python [str] is modelled by the [string] of its UTF-8 bytes.
    [str.lower] and the word classes [\b] and [\w] of the key patterns
    are embedded on ASCII letters; the digit class [\d] of [PHONE_RE] is
    embedded on whole characters, the decimal digits outside ASCII being
    those of the interpreter's Unicode tables ([UnicodeDigits]).
    Similarity scores (Python floats) are exact rationals. *)

From Stdlib Require Import QArith Ascii String.
From stdpp Require Import gmap strings list pretty.

Close Scope Q_scope.
Local Open Scope string_scope.

(* ===================================================================== *)
(** * Python string primitives *)
(* ===================================================================== *)

Definition is_digit (c : ascii) : bool :=
  let n := nat_of_ascii c in (48 <=? n)%nat && (n <=? 57)%nat.

Definition is_upper (c : ascii) : bool :=
  let n := nat_of_ascii c in (65 <=? n)%nat && (n <=? 90)%nat.

Definition is_lower (c : ascii) : bool :=
  let n := nat_of_ascii c in (97 <=? n)%nat && (n <=? 122)%nat.

(** [\w] : letters, digits and the underscore. *)
Definition is_word (c : ascii) : bool :=
  is_digit c || is_upper c || is_lower c || Ascii.eqb c "_"%char.

Definition ascii_lower (c : ascii) : ascii :=
  if is_upper c then ascii_of_nat (nat_of_ascii c + 32) else c.

(** [s.lower()] *)
Fixpoint lower (s : string) : string :=
  match s with
  | EmptyString => EmptyString
  | String c r => String (ascii_lower c) (lower r)
  end.

(** [s.startswith(p)] *)
Fixpoint startswith (p s : string) : bool :=
  match p, s with
  | EmptyString, _ => true
  | String _ _, EmptyString => false
  | String a p', String b s' => Ascii.eqb a b && startswith p' s'
  end.

(** [needle in hay] *)
Fixpoint contains (needle hay : string) : bool :=
  startswith needle hay ||
  match hay with
  | EmptyString => false
  | String _ hay' => contains needle hay'
  end.

Definition head_char (s : string) : option ascii :=
  match s with
  | EmptyString => None
  | String c _ => Some c
  end.

(* ===================================================================== *)
(** * Regular expressions of the shape [\b(w1|w2|...)\b] *)
(* ===================================================================== *)

Definition wordb (o : option ascii) : bool :=
  match o with
  | Some c => is_word c
  | None => false
  end.

(** [\b] holds between [prev] and [next] when exactly one of them is a
    word character; the ends of the text count as non-word. *)
Definition boundary (prev next : option ascii) : bool :=
  xorb (wordb prev) (wordb next).

(** Consume the literal [lit] at the front of [s]; on success give the
    last character consumed (or [prev] for an empty literal) and the
    rest of the text. *)
Fixpoint match_literal (lit s : string) (prev : option ascii)
  : option (option ascii * string) :=
  match lit with
  | EmptyString => Some (prev, s)
  | String a lit' =>
      match s with
      | EmptyString => None
      | String b s' =>
          if Ascii.eqb a b then match_literal lit' s' (Some b) else None
      end
  end.

Definition match_here (alts : list string) (prev : option ascii) (s : string)
  : bool :=
  boundary prev (head_char s) &&
  existsb (fun lit =>
             match match_literal lit s prev with
             | Some (last, rest) => boundary last (head_char rest)
             | None => false
             end) alts.

Fixpoint search_from (alts : list string) (prev : option ascii) (s : string)
  : bool :=
  match_here alts prev s ||
  match s with
  | EmptyString => false
  | String c s' => search_from alts (Some c) s'
  end.

(** [re.search(r"\b(w1|w2|...)\b", t)] as a truth value. *)
Definition re_search_words (alts : list string) (t : string) : bool :=
  search_from alts None t.

(* ===================================================================== *)
(** * Canonical keys and heuristics *)
(* ===================================================================== *)

(** Python dictionaries iterate in insertion order, so the vocabulary is
    an association list. *)
Definition CANONICAL_KEYS : list (string * list string) :=
  [ ("first_name", ["first name"; "given name"; "forename"; "fname"]);
    ("last_name", ["last name"; "surname"; "family name"; "lname"]);
    ("email", ["email"; "e-mail"; "mail"]);
    ("phone", ["phone"; "telephone"; "mobile"; "cell"]);
    ("company", ["company"; "organization"; "organisation"; "employer"]);
    ("address_line1", ["address"; "street"; "address line 1"; "addr1"]);
    ("city", ["city"; "town"]);
    ("state", ["state"; "region"; "province"; "county"]);
    ("postal_code", ["zip"; "zipcode"; "postal"; "postcode"]);
    ("country", ["country"; "nation"]);
    ("dob", ["date of birth"; "birthday"; "birth date"; "dob"]);
    ("accept_tos", ["terms"; "tos"; "agree"; "agreement"; "privacy"]) ].

Definition ALIASES : list (string * list string) :=
  [ ("postal_code", ["zip"; "zipcode"; "post_code"]);
    ("address_line1", ["address1"; "street"; "line1"]) ].

(** [d.get(k, dflt)] on an insertion-ordered dictionary. *)
Fixpoint dict_get {V} (d : list (string * V)) (k : string) (dflt : V) : V :=
  match d with
  | [] => dflt
  | (k', v) :: d' => if String.eqb k' k then v else dict_get d' k dflt
  end.

(** The twelve ordered rules that precede the fuzzy fallback. *)
Definition regex_rules (t : string) : option string :=
  if contains "email" t then Some "email"
  else if re_search_words ["zip"; "postal"; "postcode"] t then Some "postal_code"
  else if re_search_words ["first"; "given"; "forename"] t then Some "first_name"
  else if re_search_words ["last"; "surname"; "family"] t then Some "last_name"
  else if re_search_words ["phone"; "mobile"; "cell"; "tel"] t then Some "phone"
  else if re_search_words ["company"; "organization"; "organisation"; "employer"] t
       then Some "company"
  else if re_search_words ["city"; "town"] t then Some "city"
  else if re_search_words ["state"; "region"; "province"; "county"] t then Some "state"
  else if re_search_words ["country"; "nation"] t then Some "country"
  else if re_search_words ["date of birth"; "birthday"; "dob"] t then Some "dob"
  else if re_search_words ["address"; "street"] t then Some "address_line1"
  else if re_search_words ["terms"; "privacy"; "agree"; "accept"] t then Some "accept_tos"
  else None.

(** [score > best_score] on rationals. *)
Definition Qltb (x y : Q) : bool := negb (Qle_bool y x).

(** One iteration of the inner loop body. *)
Definition scan_step (score_of : string -> Q) (canon : string)
  (acc : option string * Q) (s : string) : option string * Q :=
  let '(best, best_score) := acc in
  let score := score_of s in
  if Qltb best_score score then (Some canon, score) else (best, best_score).

(** The inner loop [for s in [canon] + syns]. *)
Definition scan_key (score_of : string -> Q) (acc : option string * Q)
  (entry : string * list string) : option string * Q :=
  let '(canon, syns) := entry in
  fold_left (scan_step score_of canon) (canon :: syns) acc.

(** The outer loop [for canon, syns in CANONICAL_KEYS.items()]. *)
Definition fuzzy_scan (score_of : string -> Q) : option string * Q :=
  fold_left (scan_key score_of) CANONICAL_KEYS (None, (-1)%Q).

(** [rapidfuzz.fuzz.partial_ratio] is an external library function: the
    matching core is parametric in it. *)
Class Scorer := partial_ratio : string -> string -> Q.

Definition _guess_canonical_key `{Scorer} (text : string) : option string :=
  let t := lower text in
  match regex_rules t with
  | Some k => Some k
  | None =>
      let '(best, best_score) := fuzzy_scan (partial_ratio t) in
      if Qle_bool 65 best_score then best else None
  end.

(* ===================================================================== *)
(** * Caller data, value resolution and normalisation *)
(* ===================================================================== *)

(** Values of the caller's JSON data ([Dict[str, Any]]).  The code only
    tests such a value against [None], [""], [bool] and [str] and renders
    it with [str()]; every other JSON value (fractional number, array,
    object) is carried by its [str()] rendering. *)
Inductive PyVal : Type :=
| VNone
| VBool (b : bool)
| VInt (n : Z)
| VStr (s : string)
| VOther (rendering : string).

(** [str(value)] *)
Definition py_str (v : PyVal) : string :=
  match v with
  | VNone => "None"
  | VBool true => "True"
  | VBool false => "False"
  | VInt n => pretty n
  | VStr s => s
  | VOther r => r
  end.

(** [value in (None, "")] *)
Definition in_none_or_empty (v : PyVal) : bool :=
  match v with
  | VNone => true
  | VStr EmptyString => true
  | _ => false
  end.

(** The loop over [ALIASES.get(canon_key, [])]. *)
Fixpoint first_alias (aliases : list string) (data : gmap string PyVal) : PyVal :=
  match aliases with
  | [] => VNone
  | a :: rest =>
      match data !! a with
      | Some v => v
      | None => first_alias rest data
      end
  end.

Definition _best_data_value (canon_key : string) (data : gmap string PyVal)
  : PyVal :=
  match data !! canon_key with
  | Some v => v
  | None => first_alias (dict_get ALIASES canon_key []) data
  end.

(** ** Characters of a text

    A [str] is a sequence of code points; its model holds their UTF-8
    bytes.  [chars] cuts a text into its characters: one byte together
    with the continuation bytes ([10xxxxxx]) that follow it.  [glue] puts
    characters back into a text. *)

Definition is_cont (c : ascii) : bool :=
  let n := nat_of_ascii c in (128 <=? n)%nat && (n <? 192)%nat.

Definition starts_cont (s : string) : bool :=
  match s with
  | String c _ => is_cont c
  | EmptyString => false
  end.

Fixpoint chars (s : string) : list string :=
  match s with
  | EmptyString => []
  | String c r =>
      match chars r with
      | ch :: rest =>
          if starts_cont ch then String c ch :: rest
          else String c EmptyString :: ch :: rest
      | [] => [String c EmptyString]
      end
  end.

Fixpoint glue (l : list string) : string :=
  match l with
  | [] => EmptyString
  | ch :: rest => ch ++ glue rest
  end.

(** The payload of a leading byte ([0xxxxxxx], [110xxxxx], [1110xxxx],
    [11110xxx]) and of the continuation bytes after it. *)
Definition lead_bits (c : ascii) : N :=
  let n := N_of_ascii c in
  (if n <? 128 then n
   else if n <? 224 then n - 192
   else if n <? 240 then n - 224
   else n - 240)%N.

Fixpoint cont_bits (acc : N) (s : string) : N :=
  match s with
  | EmptyString => acc
  | String c r => cont_bits (acc * 64 + (N_of_ascii c - 128))%N r
  end.

(** [ord(ch)] of a character given by its UTF-8 bytes. *)
Definition codepoint (ch : string) : N :=
  match ch with
  | EmptyString => 0%N
  | String c r => cont_bits (lead_bits c) r
  end.

(** The code points above ASCII that [\d] matches in a [str] pattern:
    the decimal digits (category Nd) of the Unicode tables the interpreter
    ships.  The set is data of the interpreter, not of this program. *)
Class UnicodeDigits := unicode_decimal : N -> bool.

(** [\d] on one character: the ASCII digits and the Unicode decimal
    digits. *)
Definition re_digit {unicode : UnicodeDigits} (ch : string) : bool :=
  match ch with
  | EmptyString => false
  | String c r =>
      if (N_of_ascii c <? 128)%N then String.eqb r "" && is_digit c
      else if is_cont c then false
      else unicode_decimal (codepoint ch)
  end.

(** [PHONE_RE = re.compile(r"[^\d+]")]: the characters the pattern does
    not match are the decimal digits and the plus sign. *)
Definition phone_keep {unicode : UnicodeDigits} (ch : string) : bool :=
  re_digit ch || String.eqb ch "+".

(** [PHONE_RE.sub("", value)]: the text is scanned character by
    character; a character the pattern matches is replaced by the empty
    text, any other is copied. *)
Fixpoint sub_matches {unicode : UnicodeDigits} (l : list string) : string :=
  match l with
  | [] => EmptyString
  | ch :: rest =>
      if phone_keep ch then ch ++ sub_matches rest else sub_matches rest
  end.

Definition PHONE_RE_sub {unicode : UnicodeDigits} (s : string) : string :=
  sub_matches (chars s).

Definition _normalize_value {unicode : UnicodeDigits}
  (key : string) (value : PyVal) : PyVal :=
  match value with
  | VStr s =>
      if String.eqb key "phone" then
        let digits := PHONE_RE_sub s in
        VStr (if startswith "+" digits then digits
              else if String.eqb digits "" then digits else "+" ++ digits)
      else value
  | _ => value
  end.

(* ===================================================================== *)
(** * The browser driver and the effects of the fill loop *)
(* ===================================================================== *)

Record FieldMatch : Type := {
  frame : string;
  tag : string;
  type : string;
  label_text : string;
  canonical_key : option string;
  value_used : option string;
  selector_preview : string;
  filled : bool
}.

(** The element actions the loop invokes on a control handle. *)
Inductive Action (Handle : Type) : Type :=
| ASelectLabel (el : Handle) (label : string)
| ASelectValue (el : Handle) (value : string)
| ACheck (el : Handle)
| AUncheck (el : Handle)
| AFill (el : Handle) (text : string).

Arguments ASelectLabel {Handle} el label.
Arguments ASelectValue {Handle} el value.
Arguments ACheck {Handle} el.
Arguments AUncheck {Handle} el.
Arguments AFill {Handle} el text.

(** The automation driver: performing an action in a page state either
    returns normally ([None]) or raises an exception with a message. *)
Class Driver (Handle World : Type) :=
  perform : Action Handle -> World -> option string * World.

(** What the loop can change: the page, the shared [logs] list, and the
    history of driver calls. *)
Record State (Handle World : Type) : Type := {
  world : World;
  logs : list string;
  calls : list (Action Handle)
}.

Arguments world {Handle World} s.
Arguments logs {Handle World} s.
Arguments calls {Handle World} s.

Inductive Outcome (A : Type) : Type :=
| Returned (a : A)
| Raised (e : string).

Arguments Returned {A} a.
Arguments Raised {A} e.

Definition M (Handle World A : Type) : Type :=
  State Handle World -> Outcome A * State Handle World.

Definition ret {Handle World A} (a : A) : M Handle World A :=
  fun st => (Returned a, st).

Definition bind {Handle World A B} (m : M Handle World A)
  (k : A -> M Handle World B) : M Handle World B :=
  fun st =>
    match m st with
    | (Returned a, st') => k a st'
    | (Raised e, st') => (Raised e, st')
    end.

Notation "x <- m ;; k" := (bind m (fun x => k))
  (at level 100, m at next level, right associativity).
Notation "m ;;; k" := (bind m (fun _ => k))
  (at level 100, right associativity).

(** [try: body  except Exception as e: handler(e)] *)
Definition try_except {Handle World A} (body : M Handle World A)
  (handler : string -> M Handle World A) : M Handle World A :=
  fun st =>
    match body st with
    | (Returned a, st') => (Returned a, st')
    | (Raised e, st') => handler e st'
    end.

(** [logs.append(msg)] *)
Definition logs_append {Handle World} (msg : string) : M Handle World unit :=
  fun st =>
    (Returned tt,
     {| world := world st; logs := logs st ++ [msg]; calls := calls st |}).

(** A driver call: recorded in the history, it changes the page and
    returns or raises as the driver decides. *)
Definition call {Handle World} `{Driver Handle World} (a : Action Handle)
  : M Handle World unit :=
  fun st =>
    let '(r, w) := perform a (world st) in
    let st' := {| world := w; logs := logs st; calls := calls st ++ [a] |} in
    match r with
    | None => (Returned tt, st')
    | Some e => (Raised e, st')
    end.

(** [for x in xs: ys.append(body(x))] *)
Fixpoint for_each {Handle World A B} (body : A -> M Handle World B)
  (xs : list A) : M Handle World (list B) :=
  match xs with
  | [] => ret []
  | x :: xs' =>
      y <- body x ;;
      ys <- for_each body xs' ;;
      ret (y :: ys)
  end.

(** [meta.get(key, dflt)] *)
Definition meta_get (meta : gmap string string) (key dflt : string) : string :=
  default dflt (meta !! key).

(** Truth value of [canon : Optional[str]]. *)
Definition truthy (canon : option string) : bool :=
  match canon with
  | Some k => negb (String.eqb k "")
  | None => false
  end.

(* ===================================================================== *)
(** * The fill loop *)
(* ===================================================================== *)

Section FillLoop.
Context {Handle World : Type} `{Scorer} `{Driver Handle World}
  {unicode : UnicodeDigits}.

(** The guarded part of the [try] block: normalise, dispatch on tag and
    type, then set [filled] and [value_used].  The two locals are
    assigned after the last driver call, so the block yields them as
    its result. *)
Definition dispatch (el : Handle) (meta : gmap string string)
  (canon : string) (value : PyVal) : M Handle World (bool * option string) :=
  let value := _normalize_value canon value in
  let tag := meta_get meta "tag" "" in
  let typ := lower (meta_get meta "type" "") in
  (if String.eqb tag "select" then
     try_except (call (ASelectLabel el (py_str value)))
                (fun _ => call (ASelectValue el (py_str value)))
   else if String.eqb typ "checkbox" || String.eqb typ "radio" then
     let should := match value with VBool b => b | _ => true end in
     if should then call (ACheck el) else call (AUncheck el)
   else call (AFill el (py_str value))) ;;;
  ret (true, Some (py_str value)).

(** The body of [try]. *)
Definition fill_attempt (el : Handle) (meta : gmap string string)
  (canon : option string) (value : PyVal)
  : M Handle World (bool * option string) :=
  match canon with
  | Some k =>
      if truthy canon && negb (in_none_or_empty value)
      then dispatch el meta k value
      else ret (false, None)
  | None => ret (false, None)
  end.

(** The [try] block of one iteration, with [canon] and [value] as the
    loop computes them just before it. *)
Definition fill_try (data : gmap string PyVal)
  (item : Handle * Handle * gmap string string)
  : M Handle World (bool * option string) :=
  let '(f, el, meta) := item in
  let canon := _guess_canonical_key (meta_get meta "text" "") in
  let value :=
    match canon with
    | Some k => if truthy canon then _best_data_value k data else VNone
    | None => VNone
    end in
  fill_attempt el meta canon value.

(** One iteration of [for f, el, meta in discovered]. *)
Definition fill_one (data : gmap string PyVal)
  (item : Handle * Handle * gmap string string) : M Handle World FieldMatch :=
  let '(f, el, meta) := item in
  let canon := _guess_canonical_key (meta_get meta "text" "") in
  r <- try_except (fill_try data item)
         (fun e => logs_append ("Fill error: " ++ e) ;;; ret (false, None)) ;;
  ret {| frame := meta_get meta "frame" "main";
         tag := meta_get meta "tag" "";
         type := meta_get meta "type" "";
         label_text := meta_get meta "text" "";
         canonical_key := canon;
         value_used := snd r;
         selector_preview := meta_get meta "selector_preview" "";
         filled := fst r |}.

(** [_fill_discovered(page, discovered, data, timeout_ms, logs)]; the
    arguments [page] and [timeout_ms] are not used by the function and
    [logs] is the shared list held in the state. *)
Definition _fill_discovered
  (discovered : list (Handle * Handle * gmap string string))
  (data : gmap string PyVal) : M Handle World (list FieldMatch) :=
  for_each (fill_one data) discovered.




End FillLoop.

(* ===================================================================== *)
(** * A reference scorer and reference drivers *)
(* ===================================================================== *)

(** An exact-arithmetic scorer in the manner of rapidfuzz: the indel
    similarity [200 * lcs / (|a| + |b|)] of the shorter text against the
    windows of the longer one, the best window giving the score.  It is
    used to instantiate the [Scorer] interface. *)

Fixpoint take (n : nat) (s : string) : string :=
  match n, s with
  | S n', String c s' => String c (take n' s')
  | _, _ => EmptyString
  end.

Fixpoint lcs (a b : string) {struct a} : nat :=
  match a with
  | EmptyString => 0
  | String x a' =>
      (fix inner (b : string) : nat :=
         match b with
         | EmptyString => 0
         | String y b' =>
             if Ascii.eqb x y then S (lcs a' b')
             else Nat.max (lcs a' b) (inner b')
         end) b
  end.

Definition indel_ratio (a b : string) : Q :=
  let n := (String.length a + String.length b)%nat in
  if (n =? 0)%nat then 100%Q
  else Qmake (Z.of_nat (200 * lcs a b)) (Pos.of_nat n).

Fixpoint tails_take (n : nat) (s : string) : list string :=
  match s with
  | EmptyString => []
  | String _ s' => take n s :: tails_take n s'
  end.

Definition windows (n : nat) (s : string) : list string :=
  map (fun j => take j s) (seq 1 (n - 1)) ++ tails_take n s.

Definition Qmaxb (x y : Q) : Q := if Qltb x y then y else x.

Definition best_window (short long : string) : Q :=
  fold_left (fun m w => Qmaxb m (indel_ratio short w))
            (windows (String.length short) long) 0%Q.

Definition ref_partial_ratio (s1 s2 : string) : Q :=
  let n1 := String.length s1 in
  let n2 := String.length s2 in
  if (n1 =? 0)%nat && (n2 =? 0)%nat then 100%Q
  else if (n1 =? 0)%nat || (n2 =? 0)%nat then 0%Q
  else if (n1 <? n2)%nat then best_window s1 s2
  else if (n2 <? n1)%nat then best_window s2 s1
  else Qmaxb (best_window s1 s2) (best_window s2 s1).

Definition ref_scorer : Scorer := ref_partial_ratio.


(** A page on which every action is rejected. *)
Definition stale_driver : Driver nat unit :=
  fun _ w => (Some "element is not attached", w).

(** Reference Unicode tables: the first code points of the ten-digit
    runs of category Nd (Unicode 15.0), and the mathematical digits
    U+1D7CE to U+1D7FF. *)
Definition ND_RUNS : list N :=
  [0x660; 0x6F0; 0x7C0; 0x966; 0x9E6; 0xA66; 0xAE6; 0xB66; 0xBE6; 0xC66;
   0xCE6; 0xD66; 0xDE6; 0xE50; 0xED0; 0xF20; 0x1040; 0x1090; 0x17E0;
   0x1810; 0x1946; 0x19D0; 0x1A80; 0x1A90; 0x1B50; 0x1BB0; 0x1C40;
   0x1C50; 0xA620; 0xA8D0; 0xA900; 0xA9D0; 0xA9F0; 0xAA50; 0xABF0;
   0xFF10; 0x104A0; 0x10D30; 0x11066; 0x110F0; 0x11136; 0x111D0;
   0x112F0; 0x11450; 0x114D0; 0x11650; 0x116C0; 0x11730; 0x118E0;
   0x11950; 0x11C50; 0x11D50; 0x11DA0; 0x11F50; 0x16A60; 0x16AC0;
   0x16B50; 0x1E140; 0x1E2F0; 0x1E4F0; 0x1E950; 0x1FBF0]%N.

Definition ref_unicode : UnicodeDigits :=
  fun cp =>
    (existsb (fun lo => (lo <=? cp) && (cp <? lo + 10)) ND_RUNS
     || ((0x1D7CE <=? cp) && (cp <=? 0x1D7FF)))%N.

Definition init_state : State nat unit :=
  {| world := tt; logs := []; calls := [] |}.

(** Either one substring of the other. *)
Definition related (t s : string) : bool := contains t s || contains s t.

(** All comparands of the scan in the order the loops visit them, each
    with the key it would select. *)
Definition comparands (d : list (string * list string))
  : list (string * string) :=
  concat (map (fun '(k, syns) => map (fun s => (k, s)) (k :: syns)) d).

(** [all(p(c) for c in s)] *)
Fixpoint string_forall (p : ascii -> bool) (s : string) : bool :=
  match s with
  | EmptyString => true
  | String c r => p c && string_forall p r
  end.

(** A character of a text: a byte and continuation bytes after it. *)
Definition char_shape (ch : string) : bool :=
  match ch with
  | EmptyString => false
  | String _ r => string_forall is_cont r
  end.

(** A decidable certificate that the scan over [d] settles on [k] for the
    text [t]: no comparand of an earlier key is related to [t], and [t]
    itself is a comparand of [k]. *)
Fixpoint fuzzy_cert (t k : string) (d : list (string * list string)) : bool :=
  match d with
  | [] => false
  | (k', syns) :: d' =>
      if String.eqb k' k then existsb (String.eqb t) (k' :: syns)
      else forallb (fun s => negb (related t s)) (k' :: syns) && fuzzy_cert t k d'
  end.

Definition synonym_check (k s : string) : bool :=
  match regex_rules (lower s) with
  | Some k' => String.eqb k' k
  | None => negb (String.eqb (lower s) "") && fuzzy_cert (lower s) k CANONICAL_KEYS
  end.

(** The step of the scan on the flat comparand list. *)
Definition flat_step (score_of : string -> Q) (acc : option string * Q)
  (e : string * string) : option string * Q :=
  scan_step score_of (fst e) acc (snd e).

(* ===================================================================== *)
(** * Further definitions: rule table, action targets *)
(* ===================================================================== *)

(** The eleven regex rules of [_guess_canonical_key] as a table, in the
    order of the [if] chain: the words of the alternation and the key
    returned.  (The first test, ["email" in t], is not a regex.) *)
Definition RULES : list (string * list string) :=
  [ ("postal_code", ["zip"; "postal"; "postcode"]);
    ("first_name", ["first"; "given"; "forename"]);
    ("last_name", ["last"; "surname"; "family"]);
    ("phone", ["phone"; "mobile"; "cell"; "tel"]);
    ("company", ["company"; "organization"; "organisation"; "employer"]);
    ("city", ["city"; "town"]);
    ("state", ["state"; "region"; "province"; "county"]);
    ("country", ["country"; "nation"]);
    ("dob", ["date of birth"; "birthday"; "dob"]);
    ("address_line1", ["address"; "street"]);
    ("accept_tos", ["terms"; "privacy"; "agree"; "accept"]) ].

(** First rule of a table that fires on [t]. *)
Fixpoint first_rule (rules : list (string * list string)) (t : string)
  : option string :=
  match rules with
  | [] => None
  | (k, words) :: rest =>
      if re_search_words words t then Some k else first_rule rest t
  end.

(** The control an action is performed on. *)
Definition action_target {Handle} (a : Action Handle) : Handle :=
  match a with
  | ASelectLabel el _ => el
  | ASelectValue el _ => el
  | ACheck el => el
  | AUncheck el => el
  | AFill el _ => el
  end.

(* ===================================================================== *)
(** * Further definitions: more string primitives *)
(* ===================================================================== *)

(** [c.isspace()] on ASCII: tab, line feed, vertical tab, form feed,
    carriage return, the four separators 0x1c-0x1f and the space. *)
Definition is_space (c : ascii) : bool :=
  let n := nat_of_ascii c in
  ((9 <=? n)%nat && (n <=? 13)%nat) || ((28 <=? n)%nat && (n <=? 32)%nat).

(** [s.lstrip()] *)
Fixpoint lstrip (s : string) : string :=
  match s with
  | EmptyString => EmptyString
  | String c r => if is_space c then lstrip r else s
  end.

(** [s.rstrip()] *)
Fixpoint rstrip (s : string) : string :=
  match s with
  | EmptyString => EmptyString
  | String c r =>
      match rstrip r with
      | EmptyString => if is_space c then EmptyString else String c EmptyString
      | r' => String c r'
      end
  end.

(** [s.strip()] *)
Definition strip (s : string) : string := rstrip (lstrip s).

(** [sep.join(parts)] *)
Fixpoint join (sep : string) (parts : list string) : string :=
  match parts with
  | [] => EmptyString
  | [p] => p
  | p :: rest => p ++ sep ++ join sep rest
  end.

(** Last character of a text. *)
Fixpoint last_char (s : string) : option ascii :=
  match s with
  | EmptyString => None
  | String c EmptyString => Some c
  | String _ r => last_char r
  end.

(** [x or ""] for [x : Optional[str]]. *)
Definition or_empty (x : option string) : string := default "" x.

(** Truth value of an [Optional[str]]. *)
Definition nonempty (x : option string) : bool :=
  match x with
  | Some s => negb (String.eqb s "")
  | None => false
  end.

(* ===================================================================== *)
(** * Further definitions: exceptions and the page interface *)
(* ===================================================================== *)

Inductive PyExc : Type :=
| TimeoutError (msg : string)
| HTTPException (status_code : Z) (detail : string)
| OtherError (msg : string).

(** [str(e)] *)
Definition exc_str (e : PyExc) : string :=
  match e with
  | TimeoutError m => m
  | HTTPException c d => pretty c ++ ": " ++ d
  | OtherError m => m
  end.

Definition is_timeout (e : PyExc) : bool :=
  match e with
  | TimeoutError _ => true
  | _ => false
  end.

Inductive Result (A : Type) : Type :=
| Ok (a : A)
| Err (e : PyExc).

Arguments Ok {A} a.
Arguments Err {A} e.

(** Where a locator is rooted: the page or one of its frames. *)
Inductive Scope : Type :=
| ThePage
| AFrame (id : nat).

(** Locators are descriptions of elements, resolved by the driver when
    an operation is performed on them. *)
Inductive Locator : Type :=
| Loc (scope : Scope) (selector : string)
| HasNot (l inner : Locator)
| First (l : Locator)
| Nth (l : Locator) (i : nat)
| Sub (l : Locator) (selector : string).

(** The driver operations used by the page scripts, indexed by the type
    of their answer. *)
Inductive PageOp : Type -> Type :=
| OFrames : PageOp (list nat)
| OFrameName (f : Scope) : PageOp string
| OCount (l : Locator) : PageOp nat
| OIsVisible (l : Locator) : PageOp bool
| OEvalStr (l : Locator) (js : string) : PageOp string
| OEvalOptStr (l : Locator) (js : string) : PageOp (option string)
| OGetAttribute (l : Locator) (name : string) : PageOp (option string)
| OInnerText (l : Locator) : PageOp string
| OClick (l : Locator) : PageOp unit
| OSelectLabel (l : Locator) (label : string) : PageOp unit
| OSelectValue (l : Locator) (value : string) : PageOp unit
| OGoto (url wait_until : string) : PageOp unit
| OPageFill (selector text : string) : PageOp unit
| OPageClick (selector : string) : PageOp unit
| OWaitForSelector (selector : string) (timeout_ms : Z) : PageOp unit
| OWaitForLoadState (state : string) (timeout_ms : Z) : PageOp unit.

(** A driver answers an operation in a page state, or raises, and may
    change the page. *)
Class Page (World : Type) :=
  page_do : forall A, PageOp A -> World -> Result A * World.

Inductive PageCall : Type :=
| Called {A : Type} (op : PageOp A).

(** State of a page script: the page, the shared [logs] list and the
    history of operations performed. *)
Record PState (World : Type) : Type := {
  pworld : World;
  plogs : list string;
  ptrace : list PageCall
}.

Arguments pworld {World} p.
Arguments plogs {World} p.
Arguments ptrace {World} p.

Definition P (World A : Type) : Type := PState World -> Result A * PState World.

Definition pret {World A} (a : A) : P World A := fun st => (Ok a, st).

Definition pbind {World A B} (m : P World A) (k : A -> P World B) : P World B :=
  fun st =>
    match m st with
    | (Ok a, st') => k a st'
    | (Err e, st') => (Err e, st')
    end.

Notation "x <~ m ;; k" := (pbind m (fun x => k))
  (at level 100, m at next level, right associativity).
Notation "m ~;; k" := (pbind m (fun _ => k))
  (at level 100, right associativity).

(** [try: body  except Exception as e: handler(e)] *)
Definition ptry {World A} (body : P World A) (handler : PyExc -> P World A)
  : P World A :=
  fun st =>
    match body st with
    | (Ok a, st') => (Ok a, st')
    | (Err e, st') => handler e st'
    end.

(** [try: body  except PWTimeout: handler]: other exceptions pass. *)
Definition ptry_timeout {World A} (body : P World A) (handler : P World A)
  : P World A :=
  fun st =>
    match body st with
    | (Ok a, st') => (Ok a, st')
    | (Err e, st') => if is_timeout e then handler st' else (Err e, st')
    end.

(** [logs.append(msg)] *)
Definition plog {World} (msg : string) : P World unit :=
  fun st =>
    (Ok tt, {| pworld := pworld st; plogs := plogs st ++ [msg];
               ptrace := ptrace st |}).

(** Perform one driver operation. *)
Definition ask {World} `{Page World} {A} (op : PageOp A) : P World A :=
  fun st =>
    let '(r, w) := page_do A op (pworld st) in
    (r, {| pworld := w; plogs := plogs st;
           ptrace := ptrace st ++ [Called op] |}).

(** [for x in xs: r = body(x); if r is not None: out.append(r)] *)
Fixpoint pfilter_map {World A B} (body : A -> P World (option B)) (xs : list A)
  : P World (list B) :=
  match xs with
  | [] => pret []
  | x :: xs' =>
      r <~ body x ;;
      ys <~ pfilter_map body xs' ;;
      pret (match r with Some y => y :: ys | None => ys end)
  end.

(** [for x in xs: out.extend(body(x))] *)
Fixpoint pconcat_map {World A B} (body : A -> P World (list B)) (xs : list A)
  : P World (list B) :=
  match xs with
  | [] => pret []
  | x :: xs' =>
      ys <~ body x ;;
      zs <~ pconcat_map body xs' ;;
      pret (ys ++ zs)%list
  end.

(* ===================================================================== *)
(** * Further definitions: the remaining helpers of src/app.py *)
(* ===================================================================== *)

(** [require_api_key(x_api_key)], the value of [os.getenv("API_KEY")]
    being the first argument. *)
Definition require_api_key (expected x_api_key : option string) : Result unit :=
  if nonempty expected && negb (bool_decide (x_api_key = expected))
  then Err (HTTPException 401 "Invalid API key")
  else Ok tt.

Definition VERINT_HOSTS : list string :=
  ["verintcloudservices.com"; "empro.verintcloudservices.com"].

(** [_is_verint(url)]; [urlparse(url).netloc] is a library call, given
    as a function that may raise. *)
Definition _is_verint (netloc_of : string -> Result string) (url : string)
  : bool :=
  match netloc_of url with
  | Ok netloc => existsb (fun h => contains h (lower netloc)) VERINT_HOSTS
  | Err _ => false
  end.

Record SubmitHints : Type := {
  selector : option string;
  wait_selector : option string
}.

Record Login : Type := {
  url : option string;
  username_selector : string;
  password_selector : string;
  submit_selector : string;
  username : option string;
  password : option string
}.

(** [str(x)] for [x : Optional[HttpUrl]]. *)
Definition str_opt (x : option string) : string := default "None" x.

Section PageScripts.
Context {World : Type} `{Page World}.

(** [_login_if_needed(page, login, timeout_ms, logs)]; [getenv] is the
    process environment. *)
Definition _login_if_needed (getenv : string -> option string)
  (login : option Login) (timeout_ms : Z) : P World unit :=
  match login with
  | None => pret tt
  | Some login =>
      ask (OGoto (str_opt (url login)) "domcontentloaded") ~;;
      ask (OPageFill (username_selector login)
             (if nonempty (username login) then or_empty (username login)
              else default "" (getenv "LOGIN_USERNAME"))) ~;;
      ask (OPageFill (password_selector login)
             (if nonempty (password login) then or_empty (password login)
              else default "" (getenv "LOGIN_PASSWORD"))) ~;;
      ask (OPageClick (submit_selector login)) ~;;
      ptry_timeout (ask (OWaitForLoadState "networkidle" timeout_ms))
        (plog "Post-login network idle not reached; continuing.")
  end.

(** The selectors [_submit_if_possible] goes through, in order. *)
Definition submit_selectors (submit : option SubmitHints) : list string :=
  (match submit with
   | Some h => if nonempty (selector h) then [or_empty (selector h)] else []
   | None => []
   end ++
   [ "button[type='submit']";
     "input[type='submit']";
     "button:has-text('Submit')";
     "button:has-text('Next')";
     "button:has-text('Continue')";
     "[role='button']:has-text('Submit')" ])%list.

(** The body of the [try] for one selector: [true] stands for the
    [return True], [false] for falling out of the [if]. *)
Definition submit_attempt (submit : option SubmitHints) (timeout_ms : Z)
  (s : string) : P World bool :=
  let btn := Loc ThePage s in
  n <~ ask (OCount btn) ;;
  if (0 <? n)%nat then
    v <~ ask (OIsVisible (First btn)) ;;
    if v then
      ask (OClick (First btn)) ~;;
      (match submit with
       | Some h =>
           if nonempty (wait_selector h)
           then ask (OWaitForSelector (or_empty (wait_selector h)) timeout_ms)
           else ask (OWaitForLoadState "networkidle" timeout_ms)
       | None => ask (OWaitForLoadState "networkidle" timeout_ms)
       end) ~;;
      pret true
    else pret false
  else pret false.

Fixpoint submit_loop (submit : option SubmitHints) (timeout_ms : Z)
  (selectors : list string) : P World bool :=
  match selectors with
  | [] => pret false
  | s :: rest =>
      done <~ ptry (submit_attempt submit timeout_ms s)
                (fun e =>
                   plog ("Submit attempt failed for selector " ++ s ++ ": "
                         ++ exc_str e) ~;;
                   pret false) ;;
      if done then pret true else submit_loop submit timeout_ms rest
  end.

Definition _submit_if_possible (submit : option SubmitHints) (timeout_ms : Z)
  : P World bool :=
  submit_loop submit timeout_ms (submit_selectors submit).

(** The last resort of [_select_option_by_label_or_value]: click the
    first option whose text contains the value; [true] stands for the
    [return]. *)
Fixpoint click_matching_option (opts : Locator) (value : string)
  (indices : list nat) : P World bool :=
  match indices with
  | [] => pret false
  | i :: rest =>
      t <~ ask (OInnerText (Nth opts i)) ;;
      if contains (lower value) (lower (strip t)) then
        ask (OClick (Nth opts i)) ~;; pret true
      else click_matching_option opts value rest
  end.

Definition _select_option_by_label_or_value (el : Locator) (value : string)
  : P World unit :=
  done <~ ptry (ask (OSelectLabel el value) ~;; pret true)
            (fun _ => pret false) ;;
  if done then pret tt else
  done <~ ptry (ask (OSelectValue el value) ~;; pret true)
            (fun _ => pret false) ;;
  if done then pret tt else
  ptry (let opts := Sub el "option" in
        n <~ ask (OCount opts) ;;
        click_matching_option opts value (seq 0 n) ~;; pret tt)
       (fun _ => pret tt).

(** The two scripts passed to [evaluate], as tags for the driver (their
    text is not interpreted; line breaks and inner double quotes are left
    out). *)
Definition JS_LABEL_FOR : string :=
  "el => { const id = el.id; const lab = id ? document.querySelector(`label[for=${id}]`) : null; return lab ? lab.innerText.trim() : null; }".

Definition JS_NEAR_TEXT : string :=
  "el => { let t = ''; const prev = el.previousElementSibling; if (prev) t += (prev.innerText || '').trim(); const p = el.parentElement; if (p) t += ' ' + ((p.innerText || '').trim()); return t.slice(0, 300); }".

Definition CANDIDATE_ATTRS : list string :=
  ["aria-label"; "aria-labelledby"; "name"; "id"; "placeholder"; "autocomplete"].

(** One guarded read of [_candidate_text]: the text to append, if any. *)
Definition guarded_read (read : P World (option string)) : P World (list string) :=
  ptry (v <~ read ;; pret (if nonempty v then [or_empty v] else []))
       (fun _ => pret []).

Definition _candidate_text (page_el : Locator) : P World string :=
  lab <~ guarded_read (ask (OEvalOptStr page_el JS_LABEL_FOR)) ;;
  attrs <~ pconcat_map
             (fun attr => guarded_read (ask (OGetAttribute page_el attr)))
             CANDIDATE_ATTRS ;;
  near <~ guarded_read (s <~ ask (OEvalStr page_el JS_NEAR_TEXT) ;; pret (Some s)) ;;
  let txts := (lab ++ attrs ++ near)%list in
  pret (strip (join " " (List.filter (fun t => negb (String.eqb t "")) txts))).

(** A reference to a frame or to an element, as [_discover_fields] hands
    them to [_fill_discovered]. *)
Inductive Ref : Type :=
| RScope (f : Scope)
| RLoc (el : Locator).

Definition controls_of (f : Scope) : Locator :=
  HasNot (Loc f "input, textarea, select") (Loc f "[type='hidden']").

(** The end of the loop body, after the guarded reads: the reads made
    outside any [try] and the [meta] dictionary. *)
Definition describe_element (f : Scope) (el : Locator) (tag : string)
  : P World (option (Ref * Ref * gmap string string)) :=
  typ <~ ask (OGetAttribute el "type") ;;
  name <~ ask (OFrameName f) ;;
  text <~ _candidate_text el ;;
  preview <~ ask (OEvalStr el "e=>e.outerHTML.slice(0,200)") ;;
  pret (Some (RScope f, RLoc el,
              <["frame" := if String.eqb name "" then "main" else name]>
              (<["tag" := tag]>
              (<["type" := or_empty typ]>
              (<["text" := text]>
              (<["selector_preview" := preview]> ∅)))))).

(** The body of [for i in range(count)]; [None] stands for [continue]. *)
Definition discover_element (f : Scope) (i : nat)
  : P World (option (Ref * Ref * gmap string string)) :=
  let el := Nth (controls_of f) i in
  vis <~ ptry (v <~ ask (OIsVisible el) ;; pret (Some v)) (fun _ => pret None) ;;
  match vis with
  | Some true =>
      tag <~ ptry (ask (OEvalStr el "e=>e.tagName.toLowerCase()"))
               (fun _ => pret "") ;;
      describe_element f el tag
  | _ => pret None
  end.

(** The body of [for f in frames]. *)
Definition discover_frame (f : Scope)
  : P World (list (Ref * Ref * gmap string string)) :=
  count <~ ptry (ask (OCount (controls_of f))) (fun _ => pret 0%nat) ;;
  pfilter_map (discover_element f) (seq 0 count).

Definition _discover_fields : P World (list (Ref * Ref * gmap string string)) :=
  frames <~ ask OFrames ;;
  pconcat_map discover_frame (ThePage :: map AFrame frames).
End PageScripts.

(* ===================================================================== *)
(** * Further definitions: reading the operation history *)
(* ===================================================================== *)

(** The selector of a [page.locator(s).count()] call. *)
Definition counted (c : PageCall) : option string :=
  match c with
  | Called (OCount (Loc ThePage s)) => Some s
  | _ => None
  end.

(** The selector of a [page.locator(s).first.click()] call. *)
Definition clicked (c : PageCall) : option string :=
  match c with
  | Called (OClick (First (Loc ThePage s))) => Some s
  | _ => None
  end.

(** [[f(c) for c in trace if f(c) is not None]] *)
Fixpoint collect {A B} (f : A -> option B) (l : list A) : list B :=
  match l with
  | [] => []
  | x :: l' =>
      match f x with
      | Some y => y :: collect f l'
      | None => collect f l'
      end
  end.

(** The five driver calls of a login, in order. *)
Definition login_calls (getenv : string -> option string) (login : Login)
  (timeout_ms : Z) : list PageCall :=
  [ Called (OGoto (str_opt (url login)) "domcontentloaded");
    Called (OPageFill (username_selector login)
              (if nonempty (username login) then or_empty (username login)
               else default "" (getenv "LOGIN_USERNAME")));
    Called (OPageFill (password_selector login)
              (if nonempty (password login) then or_empty (password login)
               else default "" (getenv "LOGIN_PASSWORD")));
    Called (OPageClick (submit_selector login));
    Called (OWaitForLoadState "networkidle" timeout_ms) ].

(** The wait [_submit_if_possible] makes after a click: for the caller's
    wait selector when one is given, for an idle network otherwise. *)
Definition submit_wait (submit : option SubmitHints) (timeout_ms : Z)
  : PageOp unit :=
  match submit with
  | Some h =>
      if nonempty (wait_selector h)
      then OWaitForSelector (or_empty (wait_selector h)) timeout_ms
      else OWaitForLoadState "networkidle" timeout_ms
  | None => OWaitForLoadState "networkidle" timeout_ms
  end.

(** The four driver calls of a submit attempt that goes all the way. *)
Definition submit_calls (submit : option SubmitHints) (timeout_ms : Z)
  (s : string) : list PageCall :=
  [ Called (OCount (Loc ThePage s));
    Called (OIsVisible (First (Loc ThePage s)));
    Called (OClick (First (Loc ThePage s)));
    Called (submit_wait submit timeout_ms) ].

(** The driver answered the four calls of an attempt on [s] favourably,
    each in the world the previous one left, from [w0] to [w4]. *)
Definition attempt_succeeded {World : Type} `{Page World}
  (submit : option SubmitHints) (timeout_ms : Z)
  (s : string) (w0 w4 : World) : Prop :=
  exists (c : nat) (w1 w2 w3 : World),
    page_do _ (OCount (Loc ThePage s)) w0 = (Ok (S c), w1) /\
    page_do _ (OIsVisible (First (Loc ThePage s))) w1 = (Ok true, w2) /\
    page_do _ (OClick (First (Loc ThePage s))) w2 = (Ok tt, w3) /\
    page_do _ (submit_wait submit timeout_ms) w3 = (Ok tt, w4).

(** The eight reads of [_candidate_text], in order. *)
Definition candidate_reads (el : Locator) : list PageCall :=
  (Called (OEvalOptStr el JS_LABEL_FOR)
   :: map (fun a => Called (OGetAttribute el a)) CANDIDATE_ATTRS
   ++ [Called (OEvalStr el JS_NEAR_TEXT)])%list.

(** A page that answers every operation the same way whenever it is
    asked, and is not changed by any. *)
Definition snapshot_page (answer : forall A, PageOp A -> Result A) : Page unit :=
  fun A op w => (answer A op, w).

(** A page on which every operation raises. *)
Definition detached_answer : forall A, PageOp A -> Result A :=
  fun A _ => Err (OtherError "detached").

(** A page with no frames and two controls, the second of them hidden;
    every button is visible and clickable, and waiting times out. *)
Definition demo_answer : forall A, PageOp A -> Result A :=
  fun A op =>
    match op in PageOp T return Result T with
    | OFrames => Ok []
    | OFrameName _ => Ok ""
    | OCount _ => Ok 2%nat
    | OIsVisible (Nth _ 1) => Ok false
    | OIsVisible _ => Ok true
    | OEvalStr _ "e=>e.tagName.toLowerCase()" => Ok "input"
    | OEvalStr _ _ => Ok " Email address "
    | OEvalOptStr _ _ => Ok None
    | OGetAttribute _ "type" => Ok (Some "text")
    | OGetAttribute _ "name" => Ok (Some "email")
    | OGetAttribute _ _ => Ok None
    | OInnerText _ => Ok " France "
    | OClick _ => Ok tt
    | OSelectLabel _ _ => Err (OtherError "no such label")
    | OSelectValue _ _ => Err (OtherError "no such value")
    | OGoto _ _ => Ok tt
    | OPageFill _ _ => Ok tt
    | OPageClick _ => Ok tt
    | OWaitForSelector _ _ => Err (TimeoutError "Timeout 15000ms exceeded.")
    | OWaitForLoadState _ _ => Err (TimeoutError "Timeout 15000ms exceeded.")
    end.

Definition init_pstate : PState unit :=
  {| pworld := tt; plogs := []; ptrace := [] |}.

(** The locator of a click. *)
Definition clicked_locator (c : PageCall) : option Locator :=
  match c with
  | Called (OClick l) => Some l
  | _ => None
  end.

Definition LOGIN_IDLE_MSG : string :=
  "Post-login network idle not reached; continuing.".

(* ===================================================================== *)
(** * Further definitions: what discovery produces *)
(* ===================================================================== *)

Definition META_KEYS : gset string :=
  {[ "frame"; "tag"; "type"; "text"; "selector_preview" ]}.

(** The shape of a discovered item: a frame, the [i]-th control of that
    frame, and a [meta] with exactly the five keys, a non-empty frame name
    and a stripped text. *)
Definition discovered_shape (item : Ref * Ref * gmap string string) : Prop :=
  exists f i,
    fst (fst item) = RScope f /\
    snd (fst item) = RLoc (Nth (controls_of f) i) /\
    dom (snd item) = META_KEYS /\
    meta_get (snd item) "frame" "main" <> "" /\
    strip (meta_get (snd item) "text" "") = meta_get (snd item) "text" "".

Definition is_ok_true (r : Result bool) : bool :=
  match r with
  | Ok true => true
  | _ => false
  end.

(** On a snapshot page: the number of controls of a frame as discovery
    sees it (none when counting raises). *)
Definition snapshot_count (answer : forall A, PageOp A -> Result A) (f : Scope)
  : nat :=
  match answer _ (OCount (controls_of f)) with
  | Ok n => n
  | Err _ => 0%nat
  end.

(** On a snapshot page: the controls of a frame whose visibility check
    answers true, in index order. *)
Definition visible_controls (answer : forall A, PageOp A -> Result A)
  (f : Scope) : list (Ref * Ref) :=
  map (fun i => (RScope f, RLoc (Nth (controls_of f) i)))
    (List.filter
       (fun i => is_ok_true (answer _ (OIsVisible (Nth (controls_of f) i))))
       (seq 0 (snapshot_count answer f))).

(** On a snapshot page: the three reads of a control that discovery
    makes outside any [try] all answer. *)
Definition unguarded_ok (answer : forall A, PageOp A -> Result A)
  (f : Scope) (i : nat) : Prop :=
  (exists t, answer _ (OGetAttribute (Nth (controls_of f) i) "type") = Ok t) /\
  (exists n, answer _ (OFrameName f) = Ok n) /\
  (exists p, answer _ (OEvalStr (Nth (controls_of f) i)
                         "e=>e.outerHTML.slice(0,200)") = Ok p).

(** The demo page, except that reading a type attribute raises. *)
Definition typeless_answer : forall A, PageOp A -> Result A :=
  fun A op =>
    match op in PageOp T return Result T with
    | OGetAttribute _ "type" => Err (OtherError "Element is not attached to the DOM")
    | op' => demo_answer _ op'
    end.

(* ===================================================================== *)
(** * Properties of phone normalisation *)
(* ===================================================================== *)

Lemma chars_starts (s : string) :
  match chars s with
  | [] => s = ""
  | ch :: _ => starts_cont ch = starts_cont s
  end.
Proof.
  destruct s as [|c r]; [reflexivity|]. cbn [chars].
  destruct (chars r) as [|ch rest]; [reflexivity|].
  destruct (starts_cont ch); reflexivity.
Qed.

Lemma chars_cons (c : ascii) (r : string) :
  chars (String c r) =
  if starts_cont r then
    match chars r with
    | ch :: rest => String c ch :: rest
    | [] => [String c ""]
    end
  else String c "" :: chars r.
Proof.
  cbn [chars]. pose proof (chars_starts r) as Hs.
  destruct (chars r) as [|ch rest]; [subst r; reflexivity|].
  rewrite Hs. destruct (starts_cont r); reflexivity.
Qed.

Lemma glue_chars (s : string) : glue (chars s) = s.
Proof.
  induction s as [|c r IH]; [reflexivity|]. cbn [chars].
  destruct (chars r) as [|ch rest].
  - cbn [glue] in *. now subst r.
  - cbn [glue] in IH.
    destruct (starts_cont ch);
      change (String c (ch ++ glue rest) = String c r); now f_equal.
Qed.

Lemma chars_shape (s : string) :
  Forall (fun ch => char_shape ch = true) (chars s).
Proof.
  induction s as [|c r IH]; [constructor|].
  pose proof (chars_starts r) as Hs. cbn [chars].
  destruct (chars r) as [|ch rest]; [repeat constructor|].
  inversion IH as [|? ? Hch Hrest]; subst.
  destruct (starts_cont ch) eqn:Hc.
  - constructor; [|exact Hrest].
    destruct ch as [|b tl]; [discriminate|].
    cbn [char_shape string_forall] in *. cbn [starts_cont] in Hc.
    now rewrite Hc, Hch.
  - constructor; [reflexivity|]. now constructor.
Qed.

Lemma chars_app_char (tl : string) :
  forall (b : ascii) (rest : string),
    string_forall is_cont tl = true -> starts_cont rest = false ->
    chars (String b tl ++ rest) = String b tl :: chars rest.
Proof.
  induction tl as [|c tl IH]; intros b rest Htl Hrest.
  - change (String b "" ++ rest) with (String b rest).
    now rewrite chars_cons, Hrest.
  - cbn [string_forall] in Htl. apply andb_prop in Htl as [Hc Htl].
    change (String b (String c tl) ++ rest)
      with (String b (String c tl ++ rest)).
    rewrite chars_cons.
    change (starts_cont (String c tl ++ rest)) with (is_cont c).
    rewrite Hc. now rewrite (IH c rest Htl Hrest).
Qed.

Lemma glue_starts (l : list string) :
  Forall (fun ch => char_shape ch = true /\ starts_cont ch = false) l ->
  starts_cont (glue l) = false.
Proof.
  intros Hl. destruct Hl as [|ch l' [Hs Hc] _]; [reflexivity|].
  destruct ch as [|b tl]; [discriminate|]. exact Hc.
Qed.

(** Cutting a text glued from characters gives the characters back. *)
Lemma chars_glue (l : list string) :
  Forall (fun ch => char_shape ch = true /\ starts_cont ch = false) l ->
  chars (glue l) = l.
Proof.
  induction 1 as [|ch l' [Hs Hc] Hl IH]; [reflexivity|].
  destruct ch as [|b tl]; [discriminate|]. cbn [glue].
  rewrite chars_app_char; [now rewrite IH | exact Hs | now apply glue_starts].
Qed.

Lemma forallb_filter {A : Type} (p : A -> bool) (l : list A) :
  forallb p (List.filter p l) = true.
Proof.
  induction l as [|x l IH]; [reflexivity|]. cbn [List.filter].
  destruct (p x) eqn:E; [cbn [forallb]; now rewrite E|exact IH].
Qed.

Lemma filter_none {A : Type} (p : A -> bool) (l : list A) :
  forallb (fun x => negb (p x)) l = true -> List.filter p l = [].
Proof.
  induction l as [|x l IH]; [reflexivity|]. cbn [forallb List.filter].
  intros [Hx Hl]%andb_prop. apply negb_true_iff in Hx. rewrite Hx. now apply IH.
Qed.

Lemma filter_fixed {A : Type} (p : A -> bool) (l : list A) :
  forallb p l = true -> List.filter p l = l.
Proof.
  induction l as [|x l IH]; [reflexivity|]. cbn [forallb List.filter].
  intros [Hx Hl]%andb_prop. rewrite Hx. f_equal. now apply IH.
Qed.

Section PhoneCharacters.
Context {unicode : UnicodeDigits}.

(** A kept character never begins with a continuation byte. *)
Lemma phone_keep_lead (ch : string) :
  phone_keep ch = true -> starts_cont ch = false.
Proof.
  unfold phone_keep, re_digit. destruct ch as [|c r]; [discriminate|].
  cbn [starts_cont]. destruct (is_cont c) eqn:Hc; [|reflexivity].
  destruct (N_of_ascii c <? 128)%N eqn:Hn.
  - exfalso. clear -Hc Hn.
    destruct c as [[] [] [] [] [] [] [] []]; vm_compute in Hc, Hn; discriminate.
  - cbn [orb]. intros He. apply String.eqb_eq in He. injection He as -> _.
    discriminate Hc.
Qed.

Lemma kept_chars (s : string) :
  Forall (fun ch => char_shape ch = true /\ starts_cont ch = false)
         (List.filter phone_keep (chars s)).
Proof.
  apply List.Forall_forall. intros ch [Hin Hk]%filter_In. split.
  - pose proof (chars_shape s) as Hs.
    rewrite List.Forall_forall in Hs. now apply Hs.
  - now apply phone_keep_lead.
Qed.

Lemma PHONE_RE_sub_filter (s : string) :
  PHONE_RE_sub s = glue (List.filter phone_keep (chars s)).
Proof.
  unfold PHONE_RE_sub. induction (chars s) as [|ch l IH]; [reflexivity|].
  cbn [sub_matches List.filter].
  destruct (phone_keep ch); [cbn [glue]; now rewrite IH | exact IH].
Qed.

Lemma PHONE_RE_sub_chars (s : string) :
  chars (PHONE_RE_sub s) = List.filter phone_keep (chars s).
Proof. rewrite PHONE_RE_sub_filter. apply chars_glue, kept_chars. Qed.

(** Every character of the result is a decimal digit or a plus sign. *)
Lemma PHONE_RE_sub_kept (s : string) :
  forallb phone_keep (chars (PHONE_RE_sub s)) = true.
Proof. rewrite PHONE_RE_sub_chars. apply forallb_filter. Qed.

Lemma PHONE_RE_sub_fixed (s : string) :
  forallb phone_keep (chars s) = true -> PHONE_RE_sub s = s.
Proof.
  intros Hk. rewrite PHONE_RE_sub_filter.
  rewrite (filter_fixed _ _ Hk). apply glue_chars.
Qed.

Lemma PHONE_RE_sub_idem (s : string) :
  PHONE_RE_sub (PHONE_RE_sub s) = PHONE_RE_sub s.
Proof. apply PHONE_RE_sub_fixed, PHONE_RE_sub_kept. Qed.

Lemma PHONE_RE_sub_none (s : string) :
  forallb (fun ch => negb (phone_keep ch)) (chars s) = true ->
  PHONE_RE_sub s = "".
Proof.
  intros Hn. rewrite PHONE_RE_sub_filter. now rewrite (filter_none _ _ Hn).
Qed.

Lemma PHONE_RE_sub_starts (s : string) : starts_cont (PHONE_RE_sub s) = false.
Proof. rewrite PHONE_RE_sub_filter. apply glue_starts, kept_chars. Qed.

(** One ASCII character in front of a text that begins a character. *)
Lemma chars_plus (s : string) :
  starts_cont s = false -> chars ("+" ++ s) = "+" :: chars s.
Proof. intros Hs. apply (chars_app_char "" "+"%char s eq_refl Hs). Qed.

Lemma digit_char (c : ascii) :
  is_digit c = true -> phone_keep (String c "") = true /\ is_cont c = false.
Proof.
  intros Hd. unfold phone_keep, re_digit.
  destruct c as [[] [] [] [] [] [] [] []]; vm_compute in Hd; try discriminate;
    split; reflexivity.
Qed.

Lemma digits_are_kept (s : string) :
  string_forall is_digit s = true ->
  forallb phone_keep (chars s) = true /\ starts_cont s = false.
Proof.
  induction s as [|c r IH]; [split; reflexivity|].
  cbn [string_forall]. intros [Hc Hr]%andb_prop.
  destruct (IH Hr) as [Hk Hs]. destruct (digit_char c Hc) as [Hkc Hcc].
  split; [|exact Hcc].
  rewrite chars_cons, Hs. cbn [forallb]. now rewrite Hkc, Hk.
Qed.

(** The normalised text of a string, as the source computes it from the
    characters that survive the substitution. *)
Lemma normalize_phone_unfold (s : string) :
  _normalize_value "phone" (VStr s) =
  VStr (if startswith "+" (PHONE_RE_sub s) then PHONE_RE_sub s
        else if String.eqb (PHONE_RE_sub s) "" then PHONE_RE_sub s
             else "+" ++ PHONE_RE_sub s).
Proof. reflexivity. Qed.

Lemma normalize_phone_fixed (s : string) :
  forallb phone_keep (chars s) = true -> startswith "+" s = true ->
  _normalize_value "phone" (VStr s) = VStr s.
Proof.
  intros Hk Hp. rewrite normalize_phone_unfold, (PHONE_RE_sub_fixed s Hk).
  now rewrite Hp.
Qed.


Lemma plus_kept (s : string) :
  forallb phone_keep (chars s) = true -> starts_cont s = false ->
  forallb phone_keep (chars ("+" ++ s)) = true.
Proof. intros Hk Hs. rewrite (chars_plus s Hs). cbn [forallb]. now rewrite Hk. Qed.

(** C8: phone normalisation is idempotent on every value; a text made of
    a plus sign followed by digits is returned unchanged; and
    "+1 415 555 0117" normalises to "+14155550117". *)
Theorem phone_normalize_idempotent :
  (forall v : PyVal,
      _normalize_value "phone" (_normalize_value "phone" v)
      = _normalize_value "phone" v) /\
  (forall d : string,
      string_forall is_digit d = true ->
      _normalize_value "phone" (VStr ("+" ++ d)) = VStr ("+" ++ d)) /\
  _normalize_value "phone" (VStr "+1 415 555 0117") = VStr "+14155550117".
Proof.
  split; [|split].
  - intros [| b | n | s | r]; try reflexivity.
    rewrite normalize_phone_unfold.
    destruct (startswith "+" (PHONE_RE_sub s)) eqn:Hp.
    + apply normalize_phone_fixed; [apply PHONE_RE_sub_kept | exact Hp].
    + destruct (String.eqb (PHONE_RE_sub s) "") eqn:He.
      * apply String.eqb_eq in He. rewrite He. reflexivity.
      * apply normalize_phone_fixed; [|reflexivity].
        apply plus_kept; [apply PHONE_RE_sub_kept | apply PHONE_RE_sub_starts].
  - intros d Hd. destruct (digits_are_kept d Hd) as [Hk Hs].
    apply normalize_phone_fixed; [|reflexivity]. now apply plus_kept.
  - reflexivity.
Qed.

(** C3 (amended): under the key "phone" a text keeps exactly its decimal
    digits and plus signs, in order (every plus sign, not only a leading
    one); a plus sign is put in front when what is kept is non-empty and
    does not begin with one; a text with neither digit nor plus sign
    normalises to the empty text; and a non-empty result always begins
    with a plus sign and holds digits and plus signs only. *)
Theorem phone_normalize_keeps_digits_and_plus (v : string) :
  let kept := glue (List.filter phone_keep (chars v)) in
  _normalize_value "phone" (VStr v)
  = VStr (if startswith "+" kept then kept
          else if String.eqb kept "" then "" else "+" ++ kept) /\
  (forallb (fun ch => negb (phone_keep ch)) (chars v) = true ->
   _normalize_value "phone" (VStr v) = VStr "") /\
  (forall r : string,
      _normalize_value "phone" (VStr v) = VStr r ->
      forallb phone_keep (chars r) = true /\
      (r <> "" -> startswith "+" r = true)).
Proof.
  cbv zeta. rewrite <- PHONE_RE_sub_filter, normalize_phone_unfold.
  split; [|split].
  - destruct (startswith "+" (PHONE_RE_sub v)); [reflexivity|].
    destruct (String.eqb (PHONE_RE_sub v) "") eqn:He; [|reflexivity].
    apply String.eqb_eq in He. now rewrite He.
  - intros Hn. now rewrite (PHONE_RE_sub_none v Hn).
  - intros r.
    destruct (startswith "+" (PHONE_RE_sub v)) eqn:Hp.
    + intros [= <-]. split; [apply PHONE_RE_sub_kept | intros _; exact Hp].
    + destruct (String.eqb (PHONE_RE_sub v) "") eqn:He; intros [= <-].
      * split; [apply PHONE_RE_sub_kept|].
        apply String.eqb_eq in He. intros Hne. now rewrite He in Hne.
      * split; [|intros _; reflexivity].
        apply plus_kept; [apply PHONE_RE_sub_kept | apply PHONE_RE_sub_starts].
Qed.
End PhoneCharacters.

Lemma phone_normalize_idempotent_witness :
  string_forall is_digit "14155550117" = true /\
  _normalize_value (unicode := ref_unicode) "phone" (VStr "+14155550117")
  = VStr "+14155550117".
Proof.
  split; [reflexivity|].
  apply (proj1 (proj2 (phone_normalize_idempotent (unicode := ref_unicode)))
               "14155550117").
  reflexivity.
Defined.

(** C3, as stated, fails: a text without any digit need not normalise
    to the empty text, because plus signs are kept wherever they occur. *)
Lemma phone_no_digit_counterexample :
  forallb (fun ch => negb (re_digit (unicode := ref_unicode) ch)) (chars "+")
  = true /\
  _normalize_value (unicode := ref_unicode) "phone" (VStr "+") = VStr "+" /\
  _normalize_value (unicode := ref_unicode) "phone" (VStr "1+2")
  = VStr "+1+2" /\
  ~ (forall v : string,
        forallb (fun ch => negb (re_digit (unicode := ref_unicode) ch))
                (chars v) = true ->
        _normalize_value (unicode := ref_unicode) "phone" (VStr v) = VStr "").
Proof.
  split; [reflexivity|]. split; [reflexivity|]. split; [reflexivity|].
  intros H. specialize (H "+" eq_refl). discriminate H.
Qed.

Lemma phone_normalize_keeps_digits_and_plus_witness :
  forallb (fun ch => negb (phone_keep (unicode := ref_unicode) ch))
          (chars "abc") = true /\
  _normalize_value (unicode := ref_unicode) "phone" (VStr "abc") = VStr "".
Proof.
  split; [reflexivity|].
  apply (proj1 (proj2 (phone_normalize_keeps_digits_and_plus
                         (unicode := ref_unicode) "abc"))).
  reflexivity.
Defined.

(** Decimal digits outside ASCII are digits too: with the reference
    tables the Arabic-Indic text "٣٤" keeps both characters, a
    full-width "１２" likewise, and accented letters are dropped. *)
Lemma phone_unicode_digits :
  chars "٣٤" = ["٣"; "٤"] /\
  codepoint "٣" = 0x663%N /\
  _normalize_value (unicode := ref_unicode) "phone" (VStr "٣٤") = VStr "+٣٤" /\
  _normalize_value (unicode := ref_unicode) "phone" (VStr "１２ é") = VStr "+１２" /\
  _normalize_value (unicode := ref_unicode) "phone" (VStr "tél: +33 1") = VStr "+331".
Proof. repeat split; vm_compute; reflexivity. Qed.

(* ===================================================================== *)
(** * Properties of value resolution *)
(* ===================================================================== *)

Lemma first_alias_none (aliases : list string) (data : gmap string PyVal) :
  Forall (fun a => data !! a = None) aliases -> first_alias aliases data = VNone.
Proof.
  induction 1 as [|a rest Ha _ IH]; simpl; [reflexivity|]. now rewrite Ha.
Qed.

Lemma first_alias_hit (pre post : list string) (a : string) (v : PyVal)
  (data : gmap string PyVal) :
  Forall (fun a' => data !! a' = None) pre -> data !! a = Some v ->
  first_alias (pre ++ a :: post)%list data = v.
Proof.
  induction 1 as [|a' pre Ha' _ IH]; simpl; intros Ha.
  - now rewrite Ha.
  - rewrite Ha'. now apply IH.
Qed.

(** C4: the canonical key's own entry wins; failing that, the first alias
    of the key (in table order) that is present; failing that, null.
    With both "postal_code" and "zip" present, "postal_code" is taken. *)
Theorem best_data_value_resolution (k : string) (d : gmap string PyVal) :
  (forall v, d !! k = Some v -> _best_data_value k d = v) /\
  (d !! k = None ->
   forall pre a post v,
     dict_get ALIASES k [] = (pre ++ a :: post)%list ->
     Forall (fun a' => d !! a' = None) pre ->
     d !! a = Some v ->
     _best_data_value k d = v) /\
  (d !! k = None ->
   Forall (fun a => d !! a = None) (dict_get ALIASES k []) ->
   _best_data_value k d = VNone) /\
  _best_data_value "postal_code"
    (<["postal_code" := VStr "94103"]> (<["zip" := VStr "00000"]> ∅))
  = VStr "94103".
Proof.
  unfold _best_data_value. repeat split.
  - intros v Hv. now rewrite Hv.
  - intros Hk pre a post v Hal Hpre Ha. rewrite Hk, Hal.
    now apply first_alias_hit.
  - intros Hk Hall. rewrite Hk. now apply first_alias_none.
Qed.

Lemma best_data_value_resolution_witness :
  _best_data_value "postal_code" (<["zipcode" := VStr "94103"]> ∅) = VStr "94103".
Proof.
  apply (proj1 (proj2 (best_data_value_resolution "postal_code"
                         (<["zipcode" := VStr "94103"]> ∅))))
    with (pre := ["zip"]) (a := "zipcode") (post := ["post_code"]).
  - vm_compute. reflexivity.
  - reflexivity.
  - repeat constructor.
  - vm_compute. reflexivity.
Defined.

Lemma best_data_value_empty (k : string) : _best_data_value k ∅ = VNone.
Proof.
  unfold _best_data_value. rewrite lookup_empty.
  apply first_alias_none, Forall_forall. intros a _. apply lookup_empty.
Qed.


(* ===================================================================== *)
(** * The linear scan of the fuzzy fallback *)
(* ===================================================================== *)

Lemma Qltb_lt (x y : Q) : Qltb x y = true <-> (x < y)%Q.
Proof.
  unfold Qltb. rewrite negb_true_iff. split.
  - intros E. apply Qnot_le_lt. intros Hle.
    apply Qle_bool_iff in Hle. congruence.
  - intros Hlt. destruct (Qle_bool y x) eqn:E; [|reflexivity].
    apply Qle_bool_iff in E. exfalso. exact (Qlt_not_le _ _ Hlt E).
Qed.

Lemma Qltb_ge (x y : Q) : Qltb x y = false <-> (y <= x)%Q.
Proof.
  unfold Qltb. rewrite negb_false_iff. apply Qle_bool_iff.
Qed.

Lemma Qle_bool_false (x y : Q) : Qle_bool x y = false <-> (y < x)%Q.
Proof.
  split.
  - intros E. apply Qnot_le_lt. intros Hle. apply Qle_bool_iff in Hle. congruence.
  - intros Hlt. destruct (Qle_bool x y) eqn:E; [|reflexivity].
    apply Qle_bool_iff in E. exfalso. exact (Qlt_not_le _ _ Hlt E).
Qed.

Section Scan.
Variable score_of : string -> Q.

Lemma fold_scan_step_map (k : string) (l : list string) acc :
  fold_left (flat_step score_of) (map (fun s => (k, s)) l) acc
  = fold_left (scan_step score_of k) l acc.
Proof.
  revert acc. induction l as [|s l IH]; intros acc; simpl; [reflexivity|].
  apply IH.
Qed.

(** The nested loops visit the comparands in the order of [comparands]. *)
Lemma scan_nested_flat (d : list (string * list string)) acc :
  fold_left (scan_key score_of) d acc
  = fold_left (flat_step score_of) (comparands d) acc.
Proof.
  revert acc. induction d as [|[k syns] d IH]; intros acc; [reflexivity|].
  change (comparands ((k, syns) :: d))
    with (map (fun s => (k, s)) (k :: syns) ++ comparands d)%list.
  rewrite fold_left_app, fold_scan_step_map, <- IH. reflexivity.
Qed.

Lemma flat_step_eq b bs (e : string * string) :
  flat_step score_of (b, bs) e
  = if Qltb bs (score_of (snd e)) then (Some (fst e), score_of (snd e))
    else (b, bs).
Proof. reflexivity. Qed.

Lemma scan_cons (e : string * string) l acc :
  fold_left (flat_step score_of) (e :: l) acc
  = fold_left (flat_step score_of) l (flat_step score_of acc e).
Proof. reflexivity. Qed.

(** Nothing changes once no later score is above the best so far. *)
Lemma scan_stable (l : list (string * string)) b bs :
  (forall e, In e l -> (score_of (snd e) <= bs)%Q) ->
  fold_left (flat_step score_of) l (b, bs) = (b, bs).
Proof.
  induction l as [|e l IH]; intros Hle; [reflexivity|].
  rewrite scan_cons, flat_step_eq.
  assert (Qltb bs (score_of (snd e)) = false) as ->
    by (apply Qltb_ge, Hle; now left).
  apply IH. intros e' He'. apply Hle. now right.
Qed.

(** The first strict maximum above the initial best is what the scan
    ends on. *)
Lemma scan_first_max (l : list (string * string)) b bs i k s :
  l !! i = Some (k, s) ->
  (bs < score_of s)%Q ->
  (forall e, In e l -> (score_of (snd e) <= score_of s)%Q) ->
  (forall j e, (j < i)%nat -> l !! j = Some e -> (score_of (snd e) < score_of s)%Q) ->
  fold_left (flat_step score_of) l (b, bs) = (Some k, score_of s).
Proof.
  revert b bs i. induction l as [|e l IH]; intros b bs i Hi Hbs Hle Hlt.
  - discriminate Hi.
  - destruct i as [|i]; simpl in Hi.
    + injection Hi as ->. rewrite scan_cons, flat_step_eq. simpl fst. simpl snd.
      apply Qltb_lt in Hbs. rewrite Hbs.
      apply scan_stable. intros e' He'. apply Hle. now right.
    + rewrite scan_cons, flat_step_eq.
      assert (score_of (snd e) < score_of s)%Q as He
          by (apply (Hlt 0%nat e); [lia | reflexivity]).
      destruct (Qltb bs (score_of (snd e))).
      * apply (IH _ _ i Hi He).
        -- intros e' He'. apply Hle. now right.
        -- intros j e' Hj Hje. apply (Hlt (S j) e'); [lia | exact Hje].
      * apply (IH _ _ i Hi Hbs).
        -- intros e' He'. apply Hle. now right.
        -- intros j e' Hj Hje. apply (Hlt (S j) e'); [lia | exact Hje].
Qed.

(** Every scan either leaves its state alone, all scores being at most
    the initial best, or ends on the first strict maximum. *)
Lemma scan_result (l : list (string * string)) b bs :
  (fold_left (flat_step score_of) l (b, bs) = (b, bs) /\
   forall e, In e l -> (score_of (snd e) <= bs)%Q) \/
  (exists i k s,
      l !! i = Some (k, s) /\
      fold_left (flat_step score_of) l (b, bs) = (Some k, score_of s) /\
      (bs < score_of s)%Q /\
      (forall e, In e l -> (score_of (snd e) <= score_of s)%Q) /\
      (forall j e, (j < i)%nat -> l !! j = Some e ->
                   (score_of (snd e) < score_of s)%Q)).
Proof.
  revert b bs. induction l as [|[k0 s0] l IH]; intros b bs.
  - left. split; [reflexivity | intros e []].
  - rewrite scan_cons, flat_step_eq. simpl fst. simpl snd.
    destruct (Qltb bs (score_of s0)) eqn:E.
    + apply Qltb_lt in E. right.
      destruct (IH (Some k0) (score_of s0))
        as [[Hst Hle] | (i & k & s & Hi & Hf & Hbs & Hle & Hlt)].
      * exists 0%nat, k0, s0. repeat split; try assumption.
        -- intros e [<- | He]; [apply Qle_refl | now apply Hle].
        -- intros j e Hj. lia.
      * exists (S i), k, s. repeat split; try assumption.
        -- now apply Qlt_trans with (score_of s0).
        -- intros e [<- | He]; [now apply Qlt_le_weak | now apply Hle].
        -- intros [|j] e Hj Hje.
           ++ injection Hje as <-. exact Hbs.
           ++ apply (Hlt j e); [lia | exact Hje].
    + apply Qltb_ge in E.
      destruct (IH b bs)
        as [[Hst Hle] | (i & k & s & Hi & Hf & Hbs & Hle & Hlt)].
      * left. split; [exact Hst|].
        intros e [<- | He]; [exact E | now apply Hle].
      * right. exists (S i), k, s. repeat split; try assumption.
        -- intros e [<- | He]; [|now apply Hle].
           apply Qlt_le_weak. now apply Qle_lt_trans with bs.
        -- intros [|j] e Hj Hje.
           ++ injection Hje as <-. now apply Qle_lt_trans with bs.
           ++ apply (Hlt j e); [lia | exact Hje].
Qed.
End Scan.

Lemma fuzzy_scan_flat (score_of : string -> Q) :
  fuzzy_scan score_of
  = fold_left (flat_step score_of) (comparands CANONICAL_KEYS) (None, (-1)%Q).
Proof. apply scan_nested_flat. Qed.

Lemma guess_fallback `{Scorer} (text : string) :
  regex_rules (lower text) = None ->
  _guess_canonical_key text
  = (let r := fuzzy_scan (partial_ratio (lower text)) in
     if Qle_bool 65 (snd r) then fst r else None).
Proof.
  intros Hr. unfold _guess_canonical_key. rewrite Hr.
  now destruct (fuzzy_scan (partial_ratio (lower text))).
Qed.

(** The decision of the fallback on an arbitrary comparand list. *)
Lemma threshold_argmax_scan (score_of : string -> Q) (cs : list (string * string)) :
  let r := fold_left (flat_step score_of) cs (None, (-1)%Q) in
  let result := if Qle_bool 65 (snd r) then fst r else None in
  (forall k,
      result = Some k <->
      exists i s,
        cs !! i = Some (k, s) /\
        (65 <= score_of s)%Q /\
        (forall e, In e cs -> (score_of (snd e) <= score_of s)%Q) /\
        (forall j e, (j < i)%nat -> cs !! j = Some e ->
                     (score_of (snd e) < score_of s)%Q)) /\
  (result = None <-> forall e, In e cs -> (score_of (snd e) < 65)%Q).
Proof.
  cbv zeta.
  destruct (scan_result score_of cs None (-1)%Q)
    as [[Hst Hle] | (i & k0 & s0 & Hi & Hf & Hbs & Hle & Hlt)].
  - rewrite Hst. simpl. split.
    + intros k. split; [discriminate|].
      intros (j & s & Hj & H65 & _).
      exfalso. apply (Qlt_not_le (-1)%Q 65%Q); [reflexivity|].
      apply Qle_trans with (score_of s); [exact H65|].
      apply (Hle (k, s)). apply list_elem_of_In. eapply list_elem_of_lookup_2, Hj.
    + split; [|reflexivity]. intros _ e He.
      apply Qle_lt_trans with (-1)%Q; [now apply Hle | reflexivity].
  - rewrite Hf. simpl. split.
    + intros k. destruct (Qle_bool 65 (score_of s0)) eqn:E.
      * apply Qle_bool_iff in E. split.
        -- intros [= <-]. exists i, s0. repeat split; assumption.
        -- intros (j & s & Hj & H65 & Hmax & Hfirst).
           destruct (Nat.lt_trichotomy i j) as [Hij | [-> | Hji]].
           ++ exfalso. apply (Qlt_irrefl (score_of s)).
              apply Qle_lt_trans with (score_of s0).
              ** apply (Hle (k, s)). apply list_elem_of_In.
                 eapply list_elem_of_lookup_2, Hj.
              ** apply (Hfirst i (k0, s0) Hij Hi).
           ++ rewrite Hi in Hj. now injection Hj as -> _.
           ++ exfalso. apply (Qlt_irrefl (score_of s0)).
              apply Qle_lt_trans with (score_of s).
              ** apply (Hmax (k0, s0)). apply list_elem_of_In.
                 eapply list_elem_of_lookup_2, Hi.
              ** apply (Hlt j (k, s) Hji Hj).
      * apply Qle_bool_false in E. split; [discriminate|].
        intros (j & s & Hj & H65 & _). exfalso.
        apply (Qlt_irrefl 65%Q). apply Qle_lt_trans with (score_of s0); [|exact E].
        apply Qle_trans with (score_of s); [exact H65|].
        apply (Hle (k, s)). apply list_elem_of_In. eapply list_elem_of_lookup_2, Hj.
    + destruct (Qle_bool 65 (score_of s0)) eqn:E.
      * apply Qle_bool_iff in E. split; [discriminate|].
        intros Hall. exfalso. apply (Qlt_irrefl 65%Q).
        apply Qle_lt_trans with (score_of s0); [exact E|].
        apply (Hall (k0, s0)). apply list_elem_of_In. eapply list_elem_of_lookup_2, Hi.
      * apply Qle_bool_false in E. split; [|reflexivity].
        intros _ e He. apply Qle_lt_trans with (score_of s0); [|exact E].
        now apply Hle.
Qed.

(** C2: when no regex rule fires, a key is returned exactly when some
    comparand scores at least 65 and no comparand scores higher, the key
    being that of the first comparand (in the loops' order) with that
    maximal score; and null is returned exactly when every comparand
    scores below 65.  The comparands of a key are its own name followed by
    its synonyms. *)
Theorem fuzzy_fallback_threshold_argmax `{Scorer} (text : string) :
  regex_rules (lower text) = None ->
  let t := lower text in
  let cs := comparands CANONICAL_KEYS in
  (forall k,
      _guess_canonical_key text = Some k <->
      exists i s,
        cs !! i = Some (k, s) /\
        (65 <= partial_ratio t s)%Q /\
        (forall e, In e cs -> (partial_ratio t (snd e) <= partial_ratio t s)%Q) /\
        (forall j e, (j < i)%nat -> cs !! j = Some e ->
                     (partial_ratio t (snd e) < partial_ratio t s)%Q)) /\
  (_guess_canonical_key text = None <->
   forall e, In e cs -> (partial_ratio t (snd e) < 65)%Q).
Proof.
  intros Hr t cs. rewrite (guess_fallback text Hr), fuzzy_scan_flat.
  apply (threshold_argmax_scan (partial_ratio t) cs).
Qed.

Lemma fuzzy_fallback_threshold_argmax_witness :
  regex_rules (lower "Fname") = None /\
  (forall k,
      @_guess_canonical_key ref_scorer "Fname" = Some k <->
      exists i s,
        comparands CANONICAL_KEYS !! i = Some (k, s) /\
        (65 <= ref_partial_ratio (lower "Fname") s)%Q /\
        (forall e, In e (comparands CANONICAL_KEYS) ->
                   (ref_partial_ratio (lower "Fname") (snd e)
                    <= ref_partial_ratio (lower "Fname") s)%Q) /\
        (forall j e, (j < i)%nat -> comparands CANONICAL_KEYS !! j = Some e ->
                     (ref_partial_ratio (lower "Fname") (snd e)
                      < ref_partial_ratio (lower "Fname") s)%Q)).
Proof.
  split; [reflexivity|].
  apply (fuzzy_fallback_threshold_argmax (H := ref_scorer) "Fname"). reflexivity.
Defined.

(* ===================================================================== *)
(** * The reference scorer meets the assumptions made on the library *)
(* ===================================================================== *)

Lemma lcs_nil_r (a : string) : lcs a "" = 0%nat.
Proof. destruct a; reflexivity. Qed.

Lemma lcs_cons (x y : ascii) (a b : string) :
  lcs (String x a) (String y b)
  = if Ascii.eqb x y then S (lcs a b)
    else Nat.max (lcs a (String y b)) (lcs (String x a) b).
Proof. reflexivity. Qed.

Lemma lcs_le (a b : string) :
  (lcs a b <= String.length a)%nat /\ (lcs a b <= String.length b)%nat.
Proof.
  revert b. induction a as [|x a IHa]; intros b; [simpl; lia|].
  induction b as [|y b IHb]; [rewrite lcs_nil_r; simpl; lia|].
  rewrite lcs_cons. cbn [String.length].
  destruct (Ascii.eqb x y).
  - specialize (IHa b). lia.
  - specialize (IHa (String y b)). cbn [String.length] in *. lia.
Qed.

Lemma lcs_full (a b : string) :
  lcs a b = String.length a -> String.length a = String.length b -> a = b.
Proof.
  revert b. induction a as [|x a IHa]; intros [|y b]; cbn [String.length];
    try discriminate; [reflexivity|].
  rewrite lcs_cons. destruct (Ascii.eqb x y) eqn:E.
  - apply Ascii.eqb_eq in E. subst y. intros Hl Hn. f_equal. apply IHa; lia.
  - intros Hl Hn.
    pose proof (lcs_le a (String y b)) as [H1 _].
    pose proof (lcs_le (String x a) b) as [_ H2]. lia.
Qed.

Lemma lcs_refl (a : string) : lcs a a = String.length a.
Proof.
  induction a as [|x a IH]; [reflexivity|].
  rewrite lcs_cons, Ascii.eqb_refl, IH. reflexivity.
Qed.

Lemma Zpos_of_nat (n : nat) : n <> 0%nat -> Z.pos (Pos.of_nat n) = Z.of_nat n.
Proof. intros Hn. rewrite <- positive_nat_Z, Nat2Pos.id; [reflexivity | exact Hn]. Qed.

Lemma indel_ratio_le (a b : string) : (indel_ratio a b <= 100)%Q.
Proof.
  unfold indel_ratio. destruct (Nat.eqb_spec (String.length a + String.length b) 0).
  - apply Qle_refl.
  - unfold Qle. cbn [Qnum Qden]. rewrite Zpos_of_nat by assumption.
    destruct (lcs_le a b). lia.
Qed.

Lemma indel_ratio_100 (a b : string) : (indel_ratio a b == 100)%Q -> a = b.
Proof.
  unfold indel_ratio. destruct (Nat.eqb_spec (String.length a + String.length b) 0).
  - intros _. destruct a, b; try reflexivity; cbn [String.length] in *; lia.
  - unfold Qeq. cbn [Qnum Qden]. rewrite Zpos_of_nat by assumption. intros He.
    destruct (lcs_le a b). apply lcs_full; lia.
Qed.

Lemma indel_ratio_refl (a : string) : (indel_ratio a a == 100)%Q.
Proof.
  unfold indel_ratio. destruct (Nat.eqb_spec (String.length a + String.length a) 0).
  - reflexivity.
  - unfold Qeq. cbn [Qnum Qden]. rewrite Zpos_of_nat by assumption.
    rewrite lcs_refl. lia.
Qed.

Lemma Qmaxb_cases (x y : Q) : Qmaxb x y = x \/ Qmaxb x y = y.
Proof. unfold Qmaxb. destruct (Qltb x y); auto. Qed.

Lemma Qmaxb_ge_l (x y : Q) : (x <= Qmaxb x y)%Q.
Proof.
  unfold Qmaxb. destruct (Qltb x y) eqn:E; [|apply Qle_refl].
  apply Qlt_le_weak. now apply Qltb_lt.
Qed.

Lemma Qmaxb_ge_r (x y : Q) : (y <= Qmaxb x y)%Q.
Proof.
  unfold Qmaxb. destruct (Qltb x y) eqn:E; [apply Qle_refl|]. now apply Qltb_ge.
Qed.

Section FoldMax.
Context {A : Type} (f : A -> Q).

Lemma fold_max_pick (ws : list A) (m : Q) :
  fold_left (fun m w => Qmaxb m (f w)) ws m = m \/
  exists w, In w ws /\ fold_left (fun m w => Qmaxb m (f w)) ws m = f w.
Proof.
  revert m. induction ws as [|w ws IH]; intros m; [now left|].
  cbn [fold_left]. destruct (IH (Qmaxb m (f w))) as [E | (w' & Hin & E)].
  - rewrite E. destruct (Qmaxb_cases m (f w)) as [-> | ->]; [now left|].
    right. exists w. split; [now left | reflexivity].
  - right. exists w'. split; [now right | exact E].
Qed.

Lemma fold_max_ge_init (ws : list A) (m : Q) :
  (m <= fold_left (fun m w => Qmaxb m (f w)) ws m)%Q.
Proof.
  revert m. induction ws as [|w ws IH]; intros m; [apply Qle_refl|].
  cbn [fold_left]. eapply Qle_trans; [apply Qmaxb_ge_l | apply IH].
Qed.

Lemma fold_max_ge (ws : list A) (m : Q) (w : A) :
  In w ws -> (f w <= fold_left (fun m w => Qmaxb m (f w)) ws m)%Q.
Proof.
  revert m. induction ws as [|w' ws IH]; intros m; [intros []|].
  cbn [fold_left]. intros [-> | Hin]; [|now apply IH].
  eapply Qle_trans; [apply Qmaxb_ge_r | apply fold_max_ge_init].
Qed.

Lemma fold_max_le (ws : list A) (m c : Q) :
  (m <= c)%Q -> (forall w, In w ws -> (f w <= c)%Q) ->
  (fold_left (fun m w => Qmaxb m (f w)) ws m <= c)%Q.
Proof.
  intros Hm Hws. destruct (fold_max_pick ws m) as [-> | (w & Hin & ->)];
    [exact Hm | now apply Hws].
Qed.
End FoldMax.

Lemma take_startswith (j : nat) (s : string) : startswith (take j s) s = true.
Proof.
  revert s. induction j as [|j IH]; intros [|c s]; try reflexivity.
  simpl. now rewrite Ascii.eqb_refl, IH.
Qed.

Lemma contains_startswith (p s : string) :
  startswith p s = true -> contains p s = true.
Proof. intros Hp. destruct s; simpl; now rewrite Hp. Qed.

Lemma contains_cons (p : string) (c : ascii) (s : string) :
  contains p s = true -> contains p (String c s) = true.
Proof. intros Hp. cbn [contains]. rewrite Hp. apply orb_true_r. Qed.

Lemma tails_take_contains (n : nat) (s w : string) :
  In w (tails_take n s) -> contains w s = true.
Proof.
  induction s as [|c s IH]; [intros []|].
  cbn [tails_take]. intros [<- | Hin].
  - apply contains_startswith, take_startswith.
  - apply contains_cons, IH, Hin.
Qed.

Lemma windows_contains (n : nat) (s w : string) :
  In w (windows n s) -> contains w s = true.
Proof.
  unfold windows. intros [Hin | Hin]%in_app_or.
  - apply in_map_iff in Hin as (j & <- & _).
    apply contains_startswith, take_startswith.
  - now apply tails_take_contains with n.
Qed.

Lemma take_all (s : string) : take (String.length s) s = s.
Proof. induction s as [|c s IH]; [reflexivity|]. simpl. now rewrite IH. Qed.

Lemma self_window (s : string) :
  s <> "" -> In s (windows (String.length s) s).
Proof.
  intros Hs. unfold windows. apply in_or_app. right.
  destruct s as [|c s]; [congruence|].
  cbn [tails_take]. left. apply take_all.
Qed.

Lemma best_window_le (short long : string) : (best_window short long <= 100)%Q.
Proof.
  unfold best_window. apply fold_max_le; [easy|].
  intros w _. apply indel_ratio_le.
Qed.

Lemma best_window_100 (short long : string) :
  (best_window short long == 100)%Q -> contains short long = true.
Proof.
  unfold best_window.
  destruct (fold_max_pick (indel_ratio short)
              (windows (String.length short) long) 0%Q) as [-> | (w & Hin & ->)].
  - intros He. discriminate He.
  - intros He. apply indel_ratio_100 in He. subst w.
    now apply windows_contains with (String.length short).
Qed.

Lemma best_window_self (s : string) : s <> "" -> (best_window s s == 100)%Q.
Proof.
  intros Hs. apply Qle_antisym; [apply best_window_le|].
  eapply Qle_trans; [|apply fold_max_ge, (self_window s Hs)].
  cbv beta. rewrite indel_ratio_refl. apply Qle_refl.
Qed.

Lemma ref_le_100 (t s : string) : (ref_partial_ratio t s <= 100)%Q.
Proof.
  unfold ref_partial_ratio.
  repeat match goal with |- context [if ?c then _ else _] => destruct c end;
    try easy; try apply best_window_le.
  destruct (Qmaxb_cases (best_window t s) (best_window s t)) as [-> | ->];
    apply best_window_le.
Qed.

Lemma ref_self (s : string) : s <> "" -> (ref_partial_ratio s s == 100)%Q.
Proof.
  intros Hs. unfold ref_partial_ratio.
  assert (String.length s <> 0%nat) as Hn by (destruct s; [congruence | discriminate]).
  apply Nat.eqb_neq in Hn. rewrite Hn, Nat.ltb_irrefl. cbn [andb orb].
  destruct (Qmaxb_cases (best_window s s) (best_window s s)) as [-> | ->];
    now apply best_window_self.
Qed.

Lemma ref_full (t s : string) :
  (ref_partial_ratio t s == 100)%Q -> related t s = true.
Proof.
  unfold ref_partial_ratio, related.
  destruct (Nat.eqb_spec (String.length t) 0) as [Ht | Ht];
    destruct (Nat.eqb_spec (String.length s) 0) as [Hs | Hs]; cbn [andb orb].
  - intros _. destruct t; [|discriminate]. destruct s; [|discriminate]. reflexivity.
  - intros He. discriminate He.
  - intros He. discriminate He.
  - destruct (String.length t <? String.length s)%nat.
    + intros He%best_window_100. now rewrite He.
    + destruct (String.length s <? String.length t)%nat.
      * intros He%best_window_100. rewrite He. apply orb_true_r.
      * destruct (Qmaxb_cases (best_window t s) (best_window s t)) as [-> | ->];
          intros He%best_window_100; rewrite He; [reflexivity | apply orb_true_r].
Qed.

(* ===================================================================== *)
(** * Exactness of key inference on the synonyms *)
(* ===================================================================== *)

Section Exactness.
Context `{Scorer}.

(** What is assumed of [fuzz.partial_ratio]: scores are at most 100, a
    non-empty text scores 100 against itself, and a score of 100 is
    only given when one text occurs inside the other. *)
Hypothesis score_le_100 : forall t s, (partial_ratio t s <= 100)%Q.
Hypothesis score_self : forall s, s <> "" -> (partial_ratio s s == 100)%Q.
Hypothesis score_full :
  forall t s, (partial_ratio t s == 100)%Q -> related t s = true.

Variables t k : string.

Lemma step_settled (k' s : string) (bs : Q) :
  (bs == 100)%Q ->
  scan_step (partial_ratio t) k' (Some k, bs) s = (Some k, bs).
Proof.
  intros Hbs. unfold scan_step.
  assert (Qltb bs (partial_ratio t s) = false) as ->; [|reflexivity].
  apply Qltb_ge. rewrite Hbs. apply score_le_100.
Qed.

Lemma block_settled (k' : string) (l : list string) (bs : Q) :
  (bs == 100)%Q ->
  fold_left (scan_step (partial_ratio t) k') l (Some k, bs) = (Some k, bs).
Proof.
  intros Hbs. induction l as [|s l IH]; [reflexivity|].
  cbn [fold_left]. now rewrite step_settled.
Qed.

Lemma keys_settled (d : list (string * list string)) (bs : Q) :
  (bs == 100)%Q ->
  fold_left (scan_key (partial_ratio t)) d (Some k, bs) = (Some k, bs).
Proof.
  intros Hbs. induction d as [|[k' syns] d IH]; [reflexivity|].
  cbn [fold_left]. unfold scan_key at 2. now rewrite block_settled.
Qed.

Lemma unrelated_below (s : string) :
  related t s = false -> (partial_ratio t s < 100)%Q.
Proof.
  intros Hr. apply Qnot_le_lt. intros Hge.
  assert (partial_ratio t s == 100)%Q as He
      by (apply Qle_antisym; [apply score_le_100 | exact Hge]).
  apply score_full in He. congruence.
Qed.

Lemma block_unrelated (k' : string) (l : list string) b (bs : Q) :
  (bs < 100)%Q ->
  forallb (fun s => negb (related t s)) l = true ->
  (snd (fold_left (scan_step (partial_ratio t) k') l (b, bs)) < 100)%Q.
Proof.
  revert b bs. induction l as [|s l IH]; intros b bs Hbs Hall; [exact Hbs|].
  cbn [forallb] in Hall. apply andb_prop in Hall as [Hs Hall].
  apply negb_true_iff, unrelated_below in Hs.
  cbn [fold_left]. unfold scan_step at 2.
  destruct (Qltb bs (partial_ratio t s)); now apply IH.
Qed.

(** Within the block of [k], a state below 100 or settled on [k] ends
    settled on [k] once the text itself has been met. *)
Lemma block_hit (l : list string) b (bs : Q) :
  t <> "" ->
  (bs < 100)%Q \/ (b = Some k /\ (bs == 100)%Q) ->
  existsb (String.eqb t) l = true ->
  exists bs', (bs' == 100)%Q /\
    fold_left (scan_step (partial_ratio t) k) l (b, bs) = (Some k, bs').
Proof.
  intros Ht. revert b bs. induction l as [|s l IH]; intros b bs Hst Hex;
    [discriminate Hex|].
  cbn [existsb] in Hex. cbn [fold_left].
  destruct Hst as [Hlow | [-> Hdone]].
  - unfold scan_step at 2.
    destruct (String.eqb_spec t s) as [<- | Hne].
    + pose proof (score_self t Ht) as Hself.
      assert (Qltb bs (partial_ratio t t) = true) as ->
          by (apply Qltb_lt; now rewrite Hself).
      exists (partial_ratio t t). split; [exact Hself|].
      now apply block_settled.
    + cbn [orb] in Hex.
      destruct (Qltb bs (partial_ratio t s)) eqn:E.
      * apply IH; [|exact Hex].
        destruct (Qlt_le_dec (partial_ratio t s) 100) as [Hl | Hg]; [now left|].
        right. split; [reflexivity|].
        apply Qle_antisym; [apply score_le_100 | exact Hg].
      * apply IH; [now left | exact Hex].
  - exists bs. split; [exact Hdone|].
    rewrite step_settled by exact Hdone. now apply block_settled.
Qed.

Lemma cert_sound (d : list (string * list string)) b (bs : Q) :
  t <> "" -> (bs < 100)%Q ->
  fuzzy_cert t k d = true ->
  exists bs', (bs' == 100)%Q /\
    fold_left (scan_key (partial_ratio t)) d (b, bs) = (Some k, bs').
Proof.
  intros Ht. revert b bs. induction d as [|[k' syns] d IH]; intros b bs Hbs Hc;
    [discriminate Hc|].
  cbn [fuzzy_cert] in Hc. cbn [fold_left]. unfold scan_key at 2.
  destruct (String.eqb_spec k' k) as [-> | Hne].
  - destruct (block_hit (k :: syns) b bs Ht (or_introl Hbs) Hc)
      as (bs' & Hbs' & ->).
    exists bs'. split; [exact Hbs'|]. now apply keys_settled.
  - apply andb_prop in Hc as [Hall Hc].
    pose proof (block_unrelated k' (k' :: syns) b bs Hbs Hall) as Hlow.
    destruct (fold_left (scan_step (partial_ratio t) k') (k' :: syns) (b, bs))
      as [b1 bs1].
    now apply IH.
Qed.
End Exactness.

Lemma synonym_check_sound `{Scorer} (k s : string) :
  (forall t s, (partial_ratio t s <= 100)%Q) ->
  (forall s, s <> "" -> (partial_ratio s s == 100)%Q) ->
  (forall t s, (partial_ratio t s == 100)%Q -> related t s = true) ->
  synonym_check k s = true -> _guess_canonical_key s = Some k.
Proof.
  intros Hle Hself Hfull. unfold synonym_check.
  destruct (regex_rules (lower s)) as [k'|] eqn:Hr.
  - intros ->%String.eqb_eq. unfold _guess_canonical_key. now rewrite Hr.
  - intros [Hne Hc]%andb_prop. rewrite (guess_fallback s Hr). cbv zeta.
    apply negb_true_iff, String.eqb_neq in Hne.
    destruct (cert_sound Hle Hself Hfull (lower s) k CANONICAL_KEYS None (-1)%Q Hne)
      as (bs' & Hbs' & Hf); [reflexivity | exact Hc |].
    unfold fuzzy_scan. rewrite Hf. cbn [fst snd].
    assert (Qle_bool 65 bs' = true) as ->; [|reflexivity].
    apply Qle_bool_iff. apply Qle_trans with 100%Q; [discriminate|].
rewrite Hbs'. apply Qle_refl.
Qed.

(** C1: the vocabulary has twelve keys, each with a non-empty synonym
    list, and inference on a text equal to any synonym returns the key of
    that synonym, by a regex rule or by the fuzzy fallback.  The fallback
    calls [fuzz.partial_ratio]; of it the statement assumes that scores
    are at most 100, that a non-empty text scores 100 against itself, and
    that 100 is only scored when one text occurs inside the other. *)
Theorem synonym_exactness `{Scorer} :
  (forall t s, (partial_ratio t s <= 100)%Q) ->
  (forall s, s <> "" -> (partial_ratio s s == 100)%Q) ->
  (forall t s, (partial_ratio t s == 100)%Q -> related t s = true) ->
  length CANONICAL_KEYS = 12%nat /\
  (forall k syns, In (k, syns) CANONICAL_KEYS -> syns <> []) /\
  (forall k syns s,
      In (k, syns) CANONICAL_KEYS -> In s syns ->
      _guess_canonical_key s = Some k).
Proof.
  intros Hle Hself Hfull. split; [reflexivity|]. split.
  - intros k syns Hk.
    assert (forallb (fun e => negb (Nat.eqb (length (snd e)) 0)) CANONICAL_KEYS = true)
      as Hall by reflexivity.
    rewrite forallb_forall in Hall. specialize (Hall _ Hk).
    intros ->. discriminate Hall.
  - intros k syns s Hk Hs.
    apply (synonym_check_sound k s Hle Hself Hfull).
    assert (forallb (fun e => forallb (synonym_check (fst e)) (snd e))
              CANONICAL_KEYS = true) as Hall by (vm_compute; reflexivity).
    rewrite forallb_forall in Hall. specialize (Hall _ Hk).
    cbn [fst snd] in Hall. rewrite forallb_forall in Hall. now apply Hall.
Qed.

Lemma synonym_exactness_witness :
  @_guess_canonical_key ref_scorer "zipcode" = Some "postal_code" /\
  @_guess_canonical_key ref_scorer "telephone" = Some "phone" /\
  @_guess_canonical_key ref_scorer "mail" = Some "email" /\
  @_guess_canonical_key ref_scorer "agreement" = Some "accept_tos".
Proof.
  pose proof (synonym_exactness (H := ref_scorer) ref_le_100 ref_self ref_full)
    as (_ & _ & Hs).
  split; [|split; [|split]].
  - apply (Hs "postal_code" ["zip"; "zipcode"; "postal"; "postcode"]);
      simpl; tauto.
  - apply (Hs "phone" ["phone"; "telephone"; "mobile"; "cell"]); simpl; tauto.
  - apply (Hs "email" ["email"; "e-mail"; "mail"]); simpl; tauto.
  - apply (Hs "accept_tos" ["terms"; "tos"; "agree"; "agreement"; "privacy"]);
      simpl; tauto.
Defined.

(* ===================================================================== *)
(** * Properties of the fill loop *)
(* ===================================================================== *)




Section FillProperties.
Context {Handle World : Type} `{Scorer} `{Driver Handle World}
  {unicode : UnicodeDigits}.

Local Abbreviation item := (Handle * Handle * gmap string string)%type.

Lemma call_cases (a : Action Handle) (st : State Handle World) :
  (exists w, perform a (world st) = (None, w) /\
     call a st = (Returned tt,
                  {| world := w; logs := logs st; calls := calls st ++ [a] |})) \/
  (exists e w, perform a (world st) = (Some e, w) /\
     call a st = (Raised e,
                  {| world := w; logs := logs st; calls := calls st ++ [a] |})).
Proof.
  unfold call. destruct (perform a (world st)) as [[e|] w].
  - right. now exists e, w.
  - left. now exists w.
Qed.

Lemma call_logs (a : Action Handle) (st : State Handle World) :
  logs (snd (call a st)) = logs st.
Proof.
  destruct (call_cases a st) as [(w & _ & ->) | (e & w & _ & ->)]; reflexivity.
Qed.

(** The guarded block either completes with [filled = True] and the
    rendering of the normalised value, or raises; it never touches
    [logs]. *)
Lemma dispatch_cases (el : Handle) (meta : gmap string string) (k : string)
  (v : PyVal) (st : State Handle World) :
  (exists st',
      dispatch el meta k v st
      = (Returned (true, Some (py_str (_normalize_value k v))), st') /\
      logs st' = logs st) \/
  (exists e st',
      dispatch el meta k v st = (Raised e, st') /\ logs st' = logs st).
Proof.
  unfold dispatch, bind, ret, try_except.
  destruct (String.eqb (meta_get meta "tag" "") "select").
  - destruct (call_cases (ASelectLabel el (py_str (_normalize_value k v))) st)
      as [(w & _ & ->) | (e & w & _ & ->)].
    + left. eexists. split; reflexivity.
    + match goal with |- context [call ?a ?s] =>
        pose proof (call_logs a s) as Hl;
        destruct (call a s) as [[[]|e'] st2] end; cbn [snd logs] in Hl.
      * left. eexists. split; [reflexivity | exact Hl].
      * right. exists e', st2. split; [reflexivity | exact Hl].
  - match goal with |- context [match ?m st with _ => _ end] =>
      assert (logs (snd (m st)) = logs st) as Hl
          by (repeat match goal with
                     | |- context [if ?c then _ else _] => destruct c
                     end; apply call_logs);
      destruct (m st) as [[[]|e'] st2] end; cbn [snd] in Hl.
    + left. eexists. split; [reflexivity | exact Hl].
    + right. exists e', st2. split; [reflexivity | exact Hl].
Qed.






Lemma for_each_cons {A B} (body : A -> M Handle World B) (x : A) (xs : list A)
  (st st1 st2 : State Handle World) (y : B) (ys : list B) :
  body x st = (Returned y, st1) ->
  for_each body xs st1 = (Returned ys, st2) ->
  for_each body (x :: xs) st = (Returned (y :: ys), st2).
Proof.
  intros Hx Hxs. cbn [for_each]. unfold bind, ret. now rewrite Hx, Hxs.
Qed.



End FillProperties.

Section FillClaims.
Context {Handle World : Type} {scorer : Scorer} {driver : Driver Handle World}
  {unicode : UnicodeDigits}.

Local Abbreviation item := (Handle * Handle * gmap string string)%type.



Lemma fill_one_empty (it : item) (st : State Handle World) :
  exists fm, fill_one ∅ it st = (Returned fm, st) /\
             filled fm = false /\ value_used fm = None.
Proof.
  destruct it as [[f el] meta].
  unfold fill_one, bind, try_except, ret, fill_try, fill_attempt.
  destruct (_guess_canonical_key (meta_get meta "text" "")) as [k|].
  - rewrite best_data_value_empty.
    assert ((if truthy (Some k) then VNone else VNone) = VNone) as ->
        by now destruct (truthy (Some k)).
    cbn [in_none_or_empty negb]. rewrite andb_false_r.
    eexists. repeat split.
  - eexists. repeat split.
Qed.

(** C9: against an empty caller data the pass returns one record per
    control, every one with [filled = false] and no value; it calls no
    driver action and logs nothing (the state is unchanged). *)
Theorem empty_data_never_fills (discovered : list item)
  (st : State Handle World) :
  exists matched,
    _fill_discovered discovered ∅ st = (Returned matched, st) /\
    length matched = length discovered /\
    Forall (fun fm => filled fm = false /\ value_used fm = None) matched.
Proof.
  induction discovered as [|it rest (matched & Hrun & Hlen & Hall)].
  - exists []. repeat split. constructor.
  - destruct (fill_one_empty it st) as (fm & Hone & Hf & Hv).
    exists (fm :: matched). split; [now apply for_each_cons with st|].
    split; [cbn [length]; now rewrite Hlen | now constructor].
Qed.



End FillClaims.

(* ===================================================================== *)
(** * The claims on concrete pages *)
(* ===================================================================== *)





(* ===================================================================== *)
(** * Further properties of key inference *)
(* ===================================================================== *)

Lemma comparands_keys (d : list (string * list string)) (k s : string) :
  In (k, s) (comparands d) -> In k (map fst d).
Proof.
  induction d as [|[k' syns] d IH]; [intros []|].
  change (comparands ((k', syns) :: d))
    with (map (fun s => (k', s)) (k' :: syns) ++ comparands d)%list.
  intros [Hin | Hin]%in_app_or.
  - apply in_map_iff in Hin as (s' & [= <- _] & _). now left.
  - right. now apply IH.
Qed.

(** X1: whatever the text and the scorer, an inferred key is one of the
    twelve keys of the vocabulary. *)
Theorem guess_in_vocabulary `{Scorer} (text k : string) :
  _guess_canonical_key text = Some k -> In k (map fst CANONICAL_KEYS).
Proof.
  destruct (regex_rules (lower text)) as [k'|] eqn:Hr.
  - unfold _guess_canonical_key. rewrite Hr. intros [= <-].
    revert Hr. unfold regex_rules.
    repeat match goal with
           | |- context [if ?c then _ else _] => destruct c
           end; intros [= <-]; simpl;
      solve [repeat first [left; reflexivity | right]].
  - rewrite (guess_fallback text Hr), fuzzy_scan_flat. cbv zeta.
    destruct (scan_result (partial_ratio (lower text))
                (comparands CANONICAL_KEYS) None (-1)%Q)
      as [[-> _] | (i & k0 & s0 & Hi & -> & _)]; cbn [fst snd].
    + now destruct (Qle_bool 65 (-1)).
    + destruct (Qle_bool 65 _); [|discriminate]. intros [= <-].
      apply comparands_keys with s0.
      apply list_elem_of_In. eapply list_elem_of_lookup_2, Hi.
Qed.

Lemma guess_in_vocabulary_witness :
  In "postal_code" (map fst CANONICAL_KEYS).
Proof.
  apply (guess_in_vocabulary (H := ref_scorer) "Zip / Postal Code" "postal_code").
  reflexivity.
Defined.

Lemma ascii_lower_idem (c : ascii) : ascii_lower (ascii_lower c) = ascii_lower c.
Proof. destruct c as [[] [] [] [] [] [] [] []]; reflexivity. Qed.

Lemma lower_idem (s : string) : lower (lower s) = lower s.
Proof.
  induction s as [|c s IH]; [reflexivity|].
  cbn [lower]. now rewrite ascii_lower_idem, IH.
Qed.

(** X2: inference does not depend on letter case: texts with the same
    lower-case form get the same key, and a text gets the key of its own
    lower-case form. *)
Theorem guess_case_insensitive `{Scorer} (a b : string) :
  lower a = lower b ->
  _guess_canonical_key a = _guess_canonical_key b /\
  _guess_canonical_key (lower a) = _guess_canonical_key b.
Proof.
  intros Hab. unfold _guess_canonical_key. rewrite lower_idem, Hab. now split.
Qed.

Lemma guess_case_insensitive_witness :
  @_guess_canonical_key ref_scorer "E-MAIL" = @_guess_canonical_key ref_scorer "e-Mail".
Proof.
  apply (guess_case_insensitive (H := ref_scorer) "E-MAIL" "e-Mail"). reflexivity.
Defined.

(** X3: the empty signature infers no key, provided the scorer rates the
    empty text below 65 against every comparand of the vocabulary (as
    [fuzz.partial_ratio] does, the comparands being non-empty). *)
Theorem guess_empty_signature `{Scorer} :
  (forall e, In e (comparands CANONICAL_KEYS) ->
             (partial_ratio "" (snd e) < 65)%Q) ->
  _guess_canonical_key "" = None.
Proof.
  intros Hlow.
  assert (regex_rules (lower "") = None) as Hr by reflexivity.
  rewrite (guess_fallback "" Hr), fuzzy_scan_flat.
  apply (threshold_argmax_scan (partial_ratio (lower ""))
           (comparands CANONICAL_KEYS)).
  exact Hlow.
Qed.

Lemma ref_scorer_empty_text (s : string) :
  s <> "" -> ref_partial_ratio "" s = 0%Q.
Proof.
  intros Hs. unfold ref_partial_ratio. cbn [String.length Nat.eqb andb orb].
  destruct s; [congruence | reflexivity].
Qed.

Lemma guess_empty_signature_witness : @_guess_canonical_key ref_scorer "" = None.
Proof.
  apply (guess_empty_signature (H := ref_scorer)).
  intros e He.
  assert (forallb (fun e => negb (String.eqb (snd e) ""))
            (comparands CANONICAL_KEYS) = true) as Hall by reflexivity.
  rewrite forallb_forall in Hall. specialize (Hall e He).
  apply negb_true_iff, String.eqb_neq in Hall.
  change (partial_ratio "" (snd e)) with (ref_partial_ratio "" (snd e)).
  now rewrite (ref_scorer_empty_text _ Hall).
Defined.

Lemma match_literal_startswith (lit s : string) (prev : option ascii) r :
  match_literal lit s prev = Some r -> startswith lit s = true.
Proof.
  revert s prev. induction lit as [|a lit IH]; intros s prev; [reflexivity|].
  destruct s as [|b s]; [discriminate|]. cbn [match_literal startswith].
  destruct (Ascii.eqb a b); [|discriminate]. intros Hm. now apply IH in Hm.
Qed.

Lemma match_here_contains (alts : list string) prev (s : string) :
  match_here alts prev s = true ->
  exists w, In w alts /\ startswith w s = true.
Proof.
  unfold match_here. intros [_ Hex]%andb_prop.
  apply existsb_exists in Hex as (w & Hin & Hw).
  exists w. split; [exact Hin|].
  destruct (match_literal w s prev) as [r|] eqn:Hm; [|discriminate].
  now apply match_literal_startswith in Hm.
Qed.

Lemma search_from_contains (alts : list string) prev (s : string) :
  search_from alts prev s = true ->
  exists w, In w alts /\ contains w s = true.
Proof.
  revert prev. induction s as [|c s IH]; intros prev; cbn [search_from].
  - rewrite orb_false_r. intros (w & Hin & Hw)%match_here_contains.
    exists w. split; [exact Hin | now apply contains_startswith].
  - intros [Hh | Hr]%orb_prop.
    + apply match_here_contains in Hh as (w & Hin & Hw).
      exists w. split; [exact Hin | now apply contains_startswith].
    + apply IH in Hr as (w & Hin & Hw).
      exists w. split; [exact Hin | now apply contains_cons].
Qed.

Lemma first_rule_sound (rules : list (string * list string)) (t k : string) :
  first_rule rules t = Some k ->
  exists words w,
    In (k, words) rules /\ In w words /\ contains w t = true.
Proof.
  induction rules as [|[k' words] rest IH]; [discriminate|].
  cbn [first_rule]. destruct (re_search_words words t) eqn:Hs.
  - intros [= <-]. apply search_from_contains in Hs as (w & Hin & Hw).
    exists words, w. split; [now left | now split].
  - intros (ws & w & Hin & Hw)%IH. exists ws, w. split; [now right | exact Hw].
Qed.

(** X4: the [if] chain of rules is the first-match reading of the rule
    table after the "email" test, and a rule only fires on a text that
    contains one of its words: a key inferred by the rule layer is either
    "email", the text containing "email", or the key of a rule one of whose
    words occurs in the text. *)
Theorem regex_rules_table (t : string) :
  regex_rules t
  = (if contains "email" t then Some "email" else first_rule RULES t) /\
  (forall k,
      regex_rules t = Some k ->
      (k = "email" /\ contains "email" t = true) \/
      (exists words w,
          In (k, words) RULES /\ In w words /\ contains w t = true)).
Proof.
  assert (regex_rules t
          = (if contains "email" t then Some "email" else first_rule RULES t))
    as Heq.
  { unfold regex_rules, RULES, first_rule.
    repeat match goal with
           | |- context [if ?c then _ else _] => destruct c
           end; reflexivity. }
  split; [exact Heq|]. intros k. rewrite Heq.
  destruct (contains "email" t) eqn:He.
  - intros [= <-]. now left.
  - intros Hk. right. now apply first_rule_sound.
Qed.

Lemma regex_rules_table_witness :
  (("phone" = "email" /\ contains "email" "work phone" = true) \/
   (exists words w,
       In ("phone", words) RULES /\ In w words /\ contains w "work phone" = true)).
Proof.
  apply (proj2 (regex_rules_table "work phone") "phone"). reflexivity.
Defined.

(* ===================================================================== *)
(** * Further properties of value resolution *)
(* ===================================================================== *)

Lemma first_alias_provenance (aliases : list string) (d : gmap string PyVal) :
  first_alias aliases d = VNone \/
  exists a, In a aliases /\ d !! a = Some (first_alias aliases d).
Proof.
  induction aliases as [|a rest IH]; [now left|].
  cbn [first_alias]. destruct (d !! a) as [v|] eqn:Ha.
  - right. exists a. split; [now left | exact Ha].
  - destruct IH as [-> | (a' & Hin & Ha')]; [now left|].
    right. exists a'. split; [now right | exact Ha'].
Qed.

(** X5: value resolution never invents a value: the result is null or is
    stored in the caller data under the key itself or under one of its
    aliases; and for a key without aliases (every key but "postal_code" and
    "address_line1") it is the plain lookup of the key. *)
Theorem best_data_value_provenance (k : string) (d : gmap string PyVal) :
  (_best_data_value k d = VNone \/
   exists k', (k' = k \/ In k' (dict_get ALIASES k [])) /\
              d !! k' = Some (_best_data_value k d)) /\
  (k <> "postal_code" -> k <> "address_line1" ->
   _best_data_value k d = default VNone (d !! k)).
Proof.
  unfold _best_data_value. split.
  - destruct (d !! k) as [v|] eqn:Hk.
    + right. exists k. split; [now left | exact Hk].
    + destruct (first_alias_provenance (dict_get ALIASES k []) d)
        as [-> | (a & Hin & Ha)]; [now left|].
      right. exists a. split; [now right | exact Ha].
  - intros H1 H2. destruct (d !! k) as [v|]; [reflexivity|].
    cbn [dict_get ALIASES].
    apply String.eqb_neq in H1, H2. rewrite String.eqb_sym in H1, H2.
    unfold ALIASES, dict_get. now rewrite H1, H2.
Qed.

Lemma best_data_value_provenance_witness :
  _best_data_value "email" (<["mail" := VStr "a@b.com"]> ∅) = VNone.
Proof.
  rewrite (proj2 (best_data_value_provenance "email"
                    (<["mail" := VStr "a@b.com"]> ∅)));
    [vm_compute; reflexivity | discriminate | discriminate].
Defined.

(* ===================================================================== *)
(** * Further properties of the fill loop *)
(* ===================================================================== *)


Section FillEffects.
Context {Handle World : Type} {scorer : Scorer} {driver : Driver Handle World}
  {unicode : UnicodeDigits}.

Local Abbreviation item := (Handle * Handle * gmap string string)%type.

Lemma call_effect (a : Action Handle) (st : State Handle World) :
  calls (snd (call a st)) = (calls st ++ [a])%list /\
  logs (snd (call a st)) = logs st.
Proof.
  destruct (call_cases a st) as [(w & _ & ->) | (e & w & _ & ->)]; now split.
Qed.

(** The guarded block makes one driver call, or two for a select, all on
    the control itself, and leaves the log alone. *)
Lemma dispatch_effects (el : Handle) (meta : gmap string string) (k : string)
  (v : PyVal) (st : State Handle World) :
  exists nc : list (Action Handle),
    calls (snd (dispatch el meta k v st)) = (calls st ++ nc)%list /\
    (1 <= length nc
     <= if String.eqb (meta_get meta "tag" "") "select" then 2 else 1)%nat /\
    Forall (fun a => action_target a = el) nc /\
    logs (snd (dispatch el meta k v st)) = logs st.
Proof.
  unfold dispatch, bind, ret, try_except.
  destruct (String.eqb (meta_get meta "tag" "") "select") eqn:Hsel.
  - match goal with |- context [call ?a st] =>
      pose proof (call_effect a st) as [Hc Hl];
      destruct (call a st) as [[[]|e] st1] end; cbn [snd] in *.
    + eexists [_]. rewrite Hc, Hl. repeat split; try (cbn; lia).
      repeat constructor.
    + match goal with |- context [call ?a st1] =>
        pose proof (call_effect a st1) as [Hc2 Hl2];
        destruct (call a st1) as [[[]|e'] st2] end; cbn [snd] in *;
        eexists [_; _]; rewrite Hc2, Hl2, Hc, Hl, <- app_assoc;
        repeat split; try (cbn; lia); repeat constructor.
  - match goal with |- context [match ?m st with _ => _ end] =>
      assert (exists a, action_target a = el /\ m = call a) as (a & Ha & ->)
    end.
    { destruct (_ || _).
      - destruct (match _normalize_value k v with VBool b => b | _ => true end);
          [exists (ACheck el) | exists (AUncheck el)]; split; reflexivity.
      - eexists (AFill el _); split; reflexivity. }
    pose proof (call_effect a st) as [Hc Hl].
    destruct (call a st) as [[[]|e] st1]; cbn [snd] in *;
      exists [a]; rewrite Hc, Hl; repeat split; try (cbn; lia);
      repeat constructor; exact Ha.
Qed.

Lemma dispatch_outcome (el : Handle) (meta : gmap string string) (k : string)
  (v : PyVal) (st : State Handle World) :
  exists (nc : list (Action Handle)) r st',
    dispatch el meta k v st = (r, st') /\
    calls st' = (calls st ++ nc)%list /\
    logs st' = logs st /\
    (1 <= length nc
     <= if String.eqb (meta_get meta "tag" "") "select" then 2 else 1)%nat /\
    Forall (fun a => action_target a = el) nc /\
    (r = Returned (true, Some (py_str (_normalize_value k v))) \/
     exists e, r = Raised e).
Proof.
  destruct (dispatch_effects el meta k v st) as (nc & Hc & Hn & Ht & Hl).
  destruct (dispatch_cases el meta k v st)
    as [(st' & Hd & _) | (e & st' & Hd & _)];
    rewrite Hd in Hc, Hl; cbn [snd] in Hc, Hl.
  - exists nc, (Returned (true, Some (py_str (_normalize_value k v)))), st'.
    split; [exact Hd|]. repeat (split; [assumption|]). now left.
  - exists nc, (Raised e), st'.
    split; [exact Hd|]. repeat (split; [assumption|]). right. now exists e.
Qed.

Lemma fill_one_effects (data : gmap string PyVal) (f el : Handle)
  (meta : gmap string string) (st : State Handle World) :
  exists fm st' (nc : list (Action Handle)) (nl : list string),
    fill_one data (f, el, meta) st = (Returned fm, st') /\
    calls st' = (calls st ++ nc)%list /\
    logs st' = (logs st ++ nl)%list /\
    (length nc
     <= if String.eqb (meta_get meta "tag" "") "select" then 2 else 1)%nat /\
    Forall (fun a => action_target a = el) nc /\
    (length nl + length (List.filter filled [fm]) <= 1)%nat /\
    (filled fm = true -> (1 <= length nc)%nat) /\
    (nc = [] -> st' = st).
Proof.
  unfold fill_one, fill_try, fill_attempt, bind, try_except, ret, logs_append.
  assert (forall fm, filled fm = false ->
           exists fm' st' (nc : list (Action Handle)) (nl : list string),
             (Returned fm, st) = (Returned fm', st') /\
             calls st' = (calls st ++ nc)%list /\
             logs st' = (logs st ++ nl)%list /\
             (length nc
              <= if String.eqb (meta_get meta "tag" "") "select"
                 then 2 else 1)%nat /\
             Forall (fun a => action_target a = el) nc /\
             (length nl + length (List.filter filled [fm']) <= 1)%nat /\
             (filled fm' = true -> (1 <= length nc)%nat) /\
             (nc = [] -> st' = st)) as Hidle.
  { intros fm Hf.
    exists fm, st, [], []. rewrite !app_nil_r. cbn [List.filter]. rewrite Hf.
    destruct (String.eqb (meta_get meta "tag" "") "select");
      repeat split; try (cbn; lia); try constructor; try congruence. }
  destruct (_guess_canonical_key (meta_get meta "text" "")) as [k|].
  - match goal with |- context [if ?c then dispatch _ _ _ ?v else _] =>
      destruct c;
      [ destruct (dispatch_outcome el meta k v st)
          as (nc & r & st1 & -> & Hc & Hl & Hn & Ht & [-> | [e ->]]) | ]
    end.
    + eexists _, st1, nc, []. rewrite app_nil_r.
      split; [reflexivity|]. split; [exact Hc|]. split; [exact Hl|].
      split; [lia|]. split; [exact Ht|]. split; [cbn; lia|].
      split; [intros _; lia|]. intros ->. cbn in Hn. lia.
    + eexists _, _, nc, ["Fill error: " ++ e].
      split; [reflexivity|]. cbn [calls logs]. rewrite Hl.
      split; [exact Hc|]. split; [reflexivity|].
      split; [lia|]. split; [exact Ht|]. split; [cbn; lia|].
      split; [intros Hf; discriminate Hf|]. intros ->. cbn in Hn. lia.
    + apply Hidle. reflexivity.
  - apply Hidle. reflexivity.
Qed.

(** X6: the pass only appends to the driver history and to the log.  The
    number of driver calls it makes is at most the number of controls
    plus the number of select controls among them (one call per control,
    one more only for a select), every call is on one of the discovered
    controls, the log entries and the filled records together are at most
    as many as the controls, and there are at least as many calls as
    filled records.  When it makes no call at all, the state is
    unchanged. *)
Theorem fill_discovered_effects (discovered : list item)
  (data : gmap string PyVal) (st : State Handle World) :
  exists matched st' (nc : list (Action Handle)) (nl : list string),
    _fill_discovered discovered data st = (Returned matched, st') /\
    calls st' = (calls st ++ nc)%list /\
    logs st' = (logs st ++ nl)%list /\
    (length nc
     <= length discovered
        + length (List.filter
                    (fun it => String.eqb (meta_get (snd it) "tag" "") "select")
                    discovered))%nat /\
    Forall (fun a => exists f meta, In (f, action_target a, meta) discovered) nc /\
    (length nl + length (List.filter filled matched) <= length discovered)%nat /\
    (length (List.filter filled matched) <= length nc)%nat /\
    (nc = [] -> st' = st).
Proof.
  revert st. induction discovered as [|[[f el] meta] rest IH]; intros st.
  - exists [], st, [], []. rewrite !app_nil_r.
    repeat split; try (cbn; lia). constructor.
  - destruct (fill_one_effects data f el meta st)
      as (fm & st1 & nc1 & nl1 & Hone & Hc1 & Hl1 & Hn1 & Ht1 & Hx1 & Hf1 & Hs1).
    destruct (IH st1)
      as (ms & st2 & nc2 & nl2 & Hrest & Hc2 & Hl2 & Hn2 & Ht2 & Hx2 & Hf2 & Hs2).
    exists (fm :: ms), st2, (nc1 ++ nc2)%list, (nl1 ++ nl2)%list.
    split; [now apply for_each_cons with st1|].
    split; [now rewrite Hc2, Hc1, app_assoc|].
    split; [now rewrite Hl2, Hl1, app_assoc|].
    cbn [List.filter snd] in Hx1 |- *. rewrite !length_app.
    split.
    { destruct (String.eqb (meta_get meta "tag" "") "select");
        cbn [length]; lia. }
    cbn [length]. split.
    { apply Forall_app. split.
      - eapply Forall_impl; [exact Ht1|]. cbv beta.
        intros a <-. exists f, meta. now left.
      - eapply Forall_impl; [exact Ht2|]. cbv beta.
        intros a (f' & meta' & Hin). exists f', meta'. now right. }
    destruct (filled fm) eqn:Hfm; cbn [length] in *.
    + specialize (Hf1 eq_refl). split; [lia|]. split; [lia|].
      intros Hnil. apply app_eq_nil in Hnil as [-> _]. cbn in Hf1. lia.
    + split; [lia|]. split; [lia|].
      intros Hnil. apply app_eq_nil in Hnil as [-> ->].
      rewrite (Hs2 eq_refl). now apply Hs1.
Qed.
End FillEffects.


Lemma fill_discovered_effects_witness :
  exists matched st' (nc : list (Action nat)),
    @_fill_discovered nat unit ref_scorer stale_driver ref_unicode
      [(0%nat, 1%nat,
        ({[ "text" := "Country"; "tag" := "select" ]} : gmap string string));
       (0%nat, 2%nat, ({[ "text" := "Decoration" ]} : gmap string string))]
      {[ "country" := VStr "France" ]} init_state
    = (Returned matched, st') /\
    calls st' = nc /\ (length nc <= 3)%nat.
Proof.
  destruct (fill_discovered_effects (scorer := ref_scorer) (driver := stale_driver)
      (unicode := ref_unicode)
              [(0%nat, 1%nat,
                ({[ "text" := "Country"; "tag" := "select" ]} : gmap string string));
               (0%nat, 2%nat, ({[ "text" := "Decoration" ]} : gmap string string))]
              {[ "country" := VStr "France" ]} init_state)
    as (matched & st' & nc & nl & Hrun & Hc & _ & Hn & _).
  exists matched, st', nc. split; [exact Hrun|]. split; [exact Hc | exact Hn].
Defined.

Section DispatchKinds.
Context {Handle World : Type} {scorer : Scorer} {driver : Driver Handle World}
  {unicode : UnicodeDigits}.


End DispatchKinds.



(* ===================================================================== *)
(** * The API key check and the host test *)
(* ===================================================================== *)

(** X9: the API key check passes exactly when no key is configured
    (unset or empty [API_KEY]) or the header equals the configured key; in
    every other case, a missing header included, it raises the 401
    exception. *)
Theorem require_api_key_accepts (expected x_api_key : option string) :
  (require_api_key expected x_api_key = Ok tt <->
   expected = None \/ expected = Some "" \/ x_api_key = expected) /\
  (require_api_key expected x_api_key = Ok tt \/
   require_api_key expected x_api_key
   = Err (HTTPException 401 "Invalid API key")).
Proof.
  unfold require_api_key.
  destruct expected as [[|c e]|]; cbn [nonempty String.eqb negb andb].
  - split; [|now left]. split; [intros _; right; now left | reflexivity].
  - destruct (bool_decide_reflect (x_api_key = Some (String c e))) as [Hx | Hx];
      cbn [negb].
    + split; [|now left]. split; [intros _; right; now right | reflexivity].
    + split; [|now right]. split; [discriminate|].
      intros [H | [H | H]]; [discriminate H | discriminate H | contradiction].
  - split; [|now left]. split; [intros _; now left | reflexivity].
Qed.

Lemma require_api_key_accepts_witness :
  require_api_key (Some "") None = Ok tt /\
  require_api_key (Some "s3cret") (Some "s3cret") = Ok tt.
Proof.
  split.
  - apply (proj1 (require_api_key_accepts (Some "") None)). right. now left.
  - apply (proj1 (require_api_key_accepts (Some "s3cret") (Some "s3cret"))).
    right. now right.
Defined.

Lemma startswith_trans (a b c : string) :
  startswith a b = true -> startswith b c = true -> startswith a c = true.
Proof.
  revert b c. induction a as [|x a IH]; intros b c; [reflexivity|].
  destruct b as [|y b]; [discriminate|]. destruct c as [|z c]; [discriminate|].
  cbn [startswith]. intros [Hxy Hab]%andb_prop [Hyz Hbc]%andb_prop.
  apply Ascii.eqb_eq in Hxy, Hyz. subst. rewrite Ascii.eqb_refl.
  now apply IH with b.
Qed.

Lemma contains_in_prefix (a b c : string) :
  contains a b = true -> startswith b c = true -> contains a c = true.
Proof.
  revert c. induction b as [|y b IH]; intros c Hab Hbc.
  - cbn [contains] in Hab. rewrite orb_false_r in Hab.
    apply contains_startswith. now apply startswith_trans with "".
  - cbn [contains] in Hab. apply orb_prop in Hab as [Hab | Hab].
    + apply contains_startswith. now apply startswith_trans with (String y b).
    + destruct c as [|z c]; [discriminate|]. cbn [startswith] in Hbc.
      apply andb_prop in Hbc as [_ Hbc]. apply contains_cons. now apply IH.
Qed.

Lemma contains_trans (a b c : string) :
  contains a b = true -> contains b c = true -> contains a c = true.
Proof.
  intros Hab. induction c as [|z c IH]; intros Hbc; cbn [contains] in Hbc.
  - rewrite orb_false_r in Hbc. now apply contains_in_prefix with b.
  - apply orb_prop in Hbc as [Hbc | Hbc].
    + now apply contains_in_prefix with b.
    + apply contains_cons. now apply IH.
Qed.

(** X10: the host test is a substring test on the lower-cased network
    location for the one text "verintcloudservices.com" (the second entry
    of the host list adds nothing), and it is false when parsing raises. *)
Theorem is_verint_substring (netloc_of : string -> Result string) (url : string) :
  _is_verint netloc_of url
  = match netloc_of url with
    | Ok netloc => contains "verintcloudservices.com" (lower netloc)
    | Err _ => false
    end.
Proof.
  unfold _is_verint. destruct (netloc_of url) as [netloc|e]; [|reflexivity].
  cbn [existsb VERINT_HOSTS]. rewrite orb_false_r.
  destruct (contains "verintcloudservices.com" (lower netloc)) eqn:Hc;
    [reflexivity|]. cbn [orb].
  destruct (contains "empro.verintcloudservices.com" (lower netloc)) eqn:He;
    [|reflexivity].
  rewrite <- Hc. symmetry.
  now apply contains_trans with "empro.verintcloudservices.com".
Qed.

(* ===================================================================== *)
(** * Stripping *)
(* ===================================================================== *)

Lemma lstrip_head (s : string) :
  match head_char (lstrip s) with
  | Some c => is_space c = false
  | None => lstrip s = ""
  end.
Proof.
  induction s as [|c r IH]; [reflexivity|].
  cbn [lstrip]. destruct (is_space c) eqn:Hc; [exact IH | exact Hc].
Qed.

Lemma lstrip_fixed (s : string) :
  match head_char s with Some c => is_space c = false | None => True end ->
  lstrip s = s.
Proof. destruct s as [|c r]; [reflexivity|]. cbn. now intros ->. Qed.

Lemma rstrip_last (s : string) :
  match last_char (rstrip s) with
  | Some c => is_space c = false
  | None => rstrip s = ""
  end.
Proof.
  induction s as [|c r IH]; [reflexivity|].
  cbn [rstrip]. destruct (rstrip r) as [|c' r'] eqn:Hr.
  - destruct (is_space c) eqn:Hc; [reflexivity | exact Hc].
  - change (last_char (String c (String c' r')))
      with (last_char (String c' r')).
    destruct (last_char (String c' r')); [exact IH | discriminate IH].
Qed.

Lemma rstrip_head (s : string) (c : ascii) :
  head_char s = Some c -> is_space c = false -> head_char (rstrip s) = Some c.
Proof.
  destruct s as [|c0 r]; [discriminate|]. cbn [head_char rstrip].
  intros [= ->] Hc. destruct (rstrip r); [now rewrite Hc | reflexivity].
Qed.

Lemma rstrip_idem (s : string) : rstrip (rstrip s) = rstrip s.
Proof.
  induction s as [|c r IH]; [reflexivity|].
  cbn [rstrip]. destruct (rstrip r) as [|c' r'] eqn:Hr.
  - destruct (is_space c) eqn:Hc; [reflexivity|]. cbn [rstrip]. now rewrite Hc.
  - change (rstrip (String c (String c' r')))
      with (match rstrip (String c' r') with
            | EmptyString => if is_space c then EmptyString else String c EmptyString
            | r'' => String c r''
            end).
    now rewrite IH.
Qed.

Lemma strip_head (s : string) :
  match head_char (strip s) with
  | Some c => is_space c = false
  | None => strip s = ""
  end.
Proof.
  unfold strip. pose proof (lstrip_head s) as Hh.
  destruct (head_char (lstrip s)) as [c|] eqn:Hc.
  - now rewrite (rstrip_head _ _ Hc Hh).
  - now rewrite Hh.
Qed.

Lemma strip_idem (s : string) : strip (strip s) = strip s.
Proof.
  unfold strip. pose proof (lstrip_head s) as Hh.
  destruct (head_char (lstrip s)) as [c|] eqn:Hc.
  - rewrite lstrip_fixed; [apply rstrip_idem|].
    now rewrite (rstrip_head _ _ Hc Hh).
  - now rewrite Hh.
Qed.

(* ===================================================================== *)
(** * Page scripts: text signature *)
(* ===================================================================== *)

Section PageScriptFacts.
Context {World : Type} {page : Page World}.

Lemma ask_effect {A} (op : PageOp A) (st : PState World) :
  plogs (snd (ask op st)) = plogs st /\
  ptrace (snd (ask op st)) = (ptrace st ++ [Called op])%list.
Proof. unfold ask. now destruct (page_do A op (pworld st)). Qed.

Lemma guarded_read_ok (read : P World (option string)) (c : PageCall) :
  (forall st, plogs (snd (read st)) = plogs st /\
              ptrace (snd (read st)) = (ptrace st ++ [c])%list) ->
  forall st, exists l st',
    guarded_read read st = (Ok l, st') /\
    plogs st' = plogs st /\ ptrace st' = (ptrace st ++ [c])%list /\
    (forall e, fst (read st) = Err e -> l = []).
Proof.
  intros Hread st. destruct (Hread st) as [Hl Ht].
  unfold guarded_read, ptry, pbind, pret.
  destruct (read st) as [[v|e] st1]; cbn [fst snd] in *.
  - exists (if nonempty v then [or_empty v] else []), st1.
    repeat split; try assumption. discriminate.
  - exists [], st1. repeat split; assumption.
Qed.

Lemma attribute_reads (el : Locator) (attrs : list string) (st : PState World) :
  exists l st',
    pconcat_map (fun a => guarded_read (ask (OGetAttribute el a))) attrs st
    = (Ok l, st') /\
    plogs st' = plogs st /\
    ptrace st' = (ptrace st ++ map (fun a => Called (OGetAttribute el a)) attrs)%list /\
    ((forall A (op : PageOp A) w, exists e w', page_do A op w = (Err e, w')) ->
     l = []).
Proof.
  revert st. induction attrs as [|a attrs IH]; intros st.
  - exists [], st. rewrite app_nil_r. repeat split.
  - destruct (guarded_read_ok (ask (OGetAttribute el a)) _
                (ask_effect (OGetAttribute el a)) st)
      as (l1 & st1 & H1 & Hl1 & Ht1 & He1).
    destruct (IH st1) as (l2 & st2 & H2 & Hl2 & Ht2 & He2).
    exists (l1 ++ l2)%list, st2. split.
    + cbn [pconcat_map]. unfold pbind at 1. rewrite H1.
      unfold pbind at 1. rewrite H2. reflexivity.
    + split; [congruence|]. split.
      * rewrite Ht2, Ht1, <- app_assoc. reflexivity.
      * intros Hall. rewrite (He2 Hall).
        destruct (Hall _ (OGetAttribute el a) (pworld st)) as (e & w' & Hw).
        rewrite (He1 e); [reflexivity|]. unfold ask. now rewrite Hw.
Qed.

(** The run of [_candidate_text]: outcome, effects and result. *)
Lemma candidate_text_run (el : Locator) (st : PState World) :
  exists s st',
    _candidate_text el st = (Ok s, st') /\
    plogs st' = plogs st /\
    ptrace st' = (ptrace st ++ candidate_reads el)%list /\
    strip s = s /\
    match head_char s with Some c => is_space c = false | None => s = "" end /\
    match last_char s with Some c => is_space c = false | None => s = "" end /\
    ((forall A (op : PageOp A) w, exists e w', page_do A op w = (Err e, w')) ->
     s = "").
Proof.
  unfold _candidate_text.
  destruct (guarded_read_ok (ask (OEvalOptStr el JS_LABEL_FOR)) _
              (ask_effect (OEvalOptStr el JS_LABEL_FOR)) st)
    as (l1 & st1 & H1 & Hl1 & Ht1 & He1).
  destruct (attribute_reads el CANDIDATE_ATTRS st1)
    as (l2 & st2 & H2 & Hl2 & Ht2 & He2).
  assert (forall st0,
             plogs (snd ((s <~ ask (OEvalStr el JS_NEAR_TEXT) ;; pret (Some s)) st0))
             = plogs st0 /\
             ptrace (snd ((s <~ ask (OEvalStr el JS_NEAR_TEXT) ;; pret (Some s)) st0))
             = (ptrace st0 ++ [Called (OEvalStr el JS_NEAR_TEXT)])%list) as Hnear.
  { intros st0. pose proof (ask_effect (OEvalStr el JS_NEAR_TEXT) st0) as Ha.
    unfold pbind, pret.
    now destruct (ask (OEvalStr el JS_NEAR_TEXT) st0) as [[s|e] st0']. }
  destruct (guarded_read_ok _ _ Hnear st2) as (l3 & st3 & H3 & Hl3 & Ht3 & He3).
  eexists _, st3. split.
  { unfold pbind at 1. rewrite H1. unfold pbind at 1. rewrite H2.
    unfold pbind at 1. rewrite H3. reflexivity. }
  split; [congruence|]. split.
  { rewrite Ht3, Ht2, Ht1. unfold candidate_reads.
    rewrite <- !app_assoc. reflexivity. }
  split; [apply strip_idem|]. split; [apply strip_head|]. split.
  { unfold strip. apply rstrip_last. }
  intros Hall. rewrite (He2 Hall).
  destruct (Hall _ (OEvalOptStr el JS_LABEL_FOR) (pworld st)) as (e1 & w1 & Hw1).
  rewrite (He1 e1) by (unfold ask; now rewrite Hw1).
  destruct (Hall _ (OEvalStr el JS_NEAR_TEXT) (pworld st2)) as (e3 & w3 & Hw3).
  rewrite (He3 e3) by (unfold pbind, ask; now rewrite Hw3).
  reflexivity.
Qed.

(** X11: extracting the text signature of an element never raises and
    never logs; it performs exactly eight reads, in the fixed order label,
    the six attributes, nearby text, whether or not some of them raise;
    its result is stripped (it neither begins nor ends with whitespace);
    and when every read raises the signature is empty. *)
Theorem candidate_text_total (el : Locator) (st : PState World) :
  exists s st',
    _candidate_text el st = (Ok s, st') /\
    plogs st' = plogs st /\
    ptrace st' = (ptrace st ++ candidate_reads el)%list /\
    strip s = s /\
    match head_char s with Some c => is_space c = false | None => s = "" end /\
    match last_char s with Some c => is_space c = false | None => s = "" end /\
    ((forall A (op : PageOp A) w, exists e w', page_do A op w = (Err e, w')) ->
     s = "").
Proof. apply candidate_text_run. Qed.
End PageScriptFacts.

Lemma candidate_text_total_witness :
  exists st',
    @_candidate_text unit (snapshot_page detached_answer) (Loc ThePage "input")
      init_pstate = (Ok "", st').
Proof.
  destruct (candidate_text_total (page := snapshot_page detached_answer)
              (Loc ThePage "input") init_pstate)
    as (s & st' & Hrun & _ & _ & _ & _ & _ & Hempty).
  exists st'. rewrite Hrun, Hempty; [reflexivity|].
  intros A op w. exists (OtherError "detached"), w. reflexivity.
Defined.

(* ===================================================================== *)
(** * Page scripts: login and option selection *)
(* ===================================================================== *)

Lemma collect_app {A B} (f : A -> option B) (l1 l2 : list A) :
  collect f (l1 ++ l2) = (collect f l1 ++ collect f l2)%list.
Proof.
  induction l1 as [|x l1 IH]; [reflexivity|].
  cbn [collect app]. destruct (f x); [cbn; now rewrite IH | exact IH].
Qed.

Section LoginAndSelect.
Context {World : Type} {page : Page World}.

(** X12: without login details nothing is done.  With them the driver
    is asked, in this order, to go to the login page, fill the user name,
    fill the password, click and wait for the network to be idle (an
    explicit non-empty user name or password is used, the environment
    variable otherwise).  Each call is made in the world the previous one
    left.  The first of the first four calls that raises ends the login
    with that exception, the later calls are not made and nothing is
    logged.  When the four succeed the wait is made: if it succeeds the
    login returns and nothing is logged; if it raises a timeout the login
    still returns and the fixed message is appended to the log; any other
    exception of the wait is raised. *)
Theorem login_steps (getenv : string -> option string) (timeout_ms : Z)
  (st : PState World) :
  _login_if_needed getenv None timeout_ms st = (Ok tt, st) /\
  (forall (login : Login) (r1 r2 r3 r4 r5 : Result unit)
          (w1 w2 w3 w4 w5 : World),
      let user := if nonempty (username login) then or_empty (username login)
                  else default "" (getenv "LOGIN_USERNAME") in
      let pass := if nonempty (password login) then or_empty (password login)
                  else default "" (getenv "LOGIN_PASSWORD") in
      let after (n : nat) (w : World) (l : list string) :=
        {| pworld := w; plogs := l;
           ptrace := (ptrace st
                      ++ firstn n (login_calls getenv login timeout_ms))%list |} in
      page_do _ (OGoto (str_opt (url login)) "domcontentloaded") (pworld st)
      = (r1, w1) ->
      page_do _ (OPageFill (username_selector login) user) w1 = (r2, w2) ->
      page_do _ (OPageFill (password_selector login) pass) w2 = (r3, w3) ->
      page_do _ (OPageClick (submit_selector login)) w3 = (r4, w4) ->
      page_do _ (OWaitForLoadState "networkidle" timeout_ms) w4 = (r5, w5) ->
      _login_if_needed getenv (Some login) timeout_ms st =
      match r1, r2, r3, r4, r5 with
      | Err e, _, _, _, _ => (Err e, after 1%nat w1 (plogs st))
      | Ok _, Err e, _, _, _ => (Err e, after 2%nat w2 (plogs st))
      | Ok _, Ok _, Err e, _, _ => (Err e, after 3%nat w3 (plogs st))
      | Ok _, Ok _, Ok _, Err e, _ => (Err e, after 4%nat w4 (plogs st))
      | Ok _, Ok _, Ok _, Ok _, Ok _ => (Ok tt, after 5%nat w5 (plogs st))
      | Ok _, Ok _, Ok _, Ok _, Err e =>
          if is_timeout e
          then (Ok tt, after 5%nat w5 (plogs st ++ [LOGIN_IDLE_MSG])%list)
          else (Err e, after 5%nat w5 (plogs st))
      end).
Proof.
  split; [reflexivity|].
  intros login r1 r2 r3 r4 r5 w1 w2 w3 w4 w5 user pass after H1 H2 H3 H4 H5.
  subst user pass after.
  unfold _login_if_needed, pbind, ptry_timeout, plog, ask, login_calls,
    LOGIN_IDLE_MSG.
  cbn [firstn]. rewrite H1. cbn [pworld plogs ptrace].
  destruct r1 as [[]|e1]; [|reflexivity].
  rewrite H2. cbn [pworld plogs ptrace]. rewrite <- ?app_assoc. cbn [app].
  destruct r2 as [[]|e2]; [|reflexivity].
  rewrite H3. cbn [pworld plogs ptrace]. rewrite <- ?app_assoc. cbn [app].
  destruct r3 as [[]|e3]; [|reflexivity].
  rewrite H4. cbn [pworld plogs ptrace]. rewrite <- ?app_assoc. cbn [app].
  destruct r4 as [[]|e4]; [|reflexivity].
  rewrite H5. cbn [pworld plogs ptrace]. rewrite <- ?app_assoc. cbn [app].
  destruct r5 as [[]|e5]; [reflexivity|].
  destruct (is_timeout e5); reflexivity.
Qed.

Lemma click_matching_option_effect (opts : Locator) (value : string)
  (indices : list nat) (st : PState World) :
  exists (tr : list PageCall) r st',
    click_matching_option opts value indices st = (r, st') /\
    plogs st' = plogs st /\
    ptrace st' = (ptrace st ++ tr)%list /\
    (length (collect clicked_locator tr) <= 1)%nat.
Proof.
  revert st. induction indices as [|i rest IH]; intros st.
  - exists [], (Ok false), st. rewrite app_nil_r. repeat split. cbn. lia.
  - cbn [click_matching_option]. unfold pbind at 1.
    pose proof (ask_effect (OInnerText (Nth opts i)) st) as [Hl Ht].
    destruct (ask (OInnerText (Nth opts i)) st) as [[t|e] st1]; cbn [snd] in *.
    + destruct (contains (lower value) (lower (strip t))).
      * unfold pbind, pret.
        pose proof (ask_effect (OClick (Nth opts i)) st1) as [Hl2 Ht2].
        exists [Called (OInnerText (Nth opts i)); Called (OClick (Nth opts i))].
        destruct (ask (OClick (Nth opts i)) st1) as [[[]|e] st2]; cbn [snd] in *;
          eexists _, st2; (split; [reflexivity|]);
          rewrite Hl2, Hl, Ht2, Ht, <- app_assoc; repeat split; cbn; lia.
      * destruct (IH st1) as (tr & r & st2 & Hrun & Hl2 & Ht2 & Hn).
        exists (Called (OInnerText (Nth opts i)) :: tr), r, st2.
        split; [exact Hrun|].
        rewrite Hl2, Hl, Ht2, Ht, <- app_assoc. repeat split. exact Hn.
    + exists [Called (OInnerText (Nth opts i))], (Err e), st1.
      split; [reflexivity|]. rewrite Hl, Ht. repeat split. cbn. lia.
Qed.

(** X13: selecting an option by label or value never raises and never
    logs.  The label is tried first and, when the driver accepts it,
    nothing else is done; when it raises and the driver accepts the value,
    exactly these two calls are made; and in every case at most one click
    is performed. *)
Theorem select_option_fallbacks (el : Locator) (value : string)
  (st : PState World) :
  exists st' (tr : list PageCall),
    _select_option_by_label_or_value el value st = (Ok tt, st') /\
    plogs st' = plogs st /\
    ptrace st' = (ptrace st ++ Called (OSelectLabel el value) :: tr)%list /\
    (length (collect clicked_locator tr) <= 1)%nat /\
    (forall w, page_do _ (OSelectLabel el value) (pworld st) = (Ok tt, w) ->
               tr = [] /\ pworld st' = w) /\
    (forall e w w2,
        page_do _ (OSelectLabel el value) (pworld st) = (Err e, w) ->
        page_do _ (OSelectValue el value) w = (Ok tt, w2) ->
        tr = [Called (OSelectValue el value)] /\ pworld st' = w2).
Proof.
  unfold _select_option_by_label_or_value, pbind, ptry, pret.
  unfold ask at 1.
  destruct (page_do _ (OSelectLabel el value) (pworld st)) as [[[]|e1] w1] eqn:H1;
    cbn [pworld plogs ptrace].
  - eexists _, []. split; [reflexivity|]. cbn [plogs ptrace pworld].
    split; [reflexivity|]. split; [reflexivity|]. split; [cbn; lia|].
    split; [intros w [= <-]; now split | intros e w w2 Hw; discriminate Hw].
  - unfold ask at 1. cbn [pworld plogs ptrace].
    destruct (page_do _ (OSelectValue el value) w1) as [[[]|e2] w2] eqn:H2;
      cbn [pworld plogs ptrace].
    + eexists _, [_]. split; [reflexivity|]. cbn [plogs ptrace pworld].
      split; [reflexivity|]. split; [now rewrite <- app_assoc|].
      split; [cbn; lia|]. split; [intros w Hw; discriminate Hw|].
      intros e w w2' [= <- <-] Hw. rewrite H2 in Hw. injection Hw as <-.
      now split.
    + unfold ask at 1. cbn [pworld plogs ptrace].
      destruct (page_do _ (OCount (Sub el "option")) w2) as [[n|e3] w3] eqn:H3;
        cbn [pworld plogs ptrace].
      * match goal with |- context [click_matching_option ?o ?v ?l ?s] =>
          destruct (click_matching_option_effect o v l s)
            as (tr & r & st4 & -> & Hl & Ht & Hn) end.
        cbn [plogs ptrace] in Hl, Ht.
        exists st4, (Called (OSelectValue el value)
                     :: Called (OCount (Sub el "option")) :: tr).
        split; [now destruct r|]. split; [exact Hl|].
        split; [now rewrite Ht, <- !app_assoc|]. split; [exact Hn|].
        split; [intros w Hw; discriminate Hw|].
        intros e w w2' [= <- <-] Hw. rewrite H2 in Hw. discriminate Hw.
      * eexists _, [_; _]. split; [reflexivity|]. cbn [plogs ptrace pworld].
        split; [reflexivity|]. split; [now rewrite <- !app_assoc|].
        split; [cbn; lia|]. split; [intros w Hw; discriminate Hw|].
        intros e w w2' [= <- <-] Hw. rewrite H2 in Hw. discriminate Hw.
Qed.
End LoginAndSelect.

Lemma login_steps_witness :
  @_login_if_needed unit (snapshot_page demo_answer) (fun _ => Some "from-env")
    (Some {| url := Some "https://example.com/login";
             username_selector := "#user"; password_selector := "#pass";
             submit_selector := "#go";
             username := Some "ada"; password := None |})
    15000 init_pstate
  = (Ok tt,
     {| pworld := tt; plogs := [LOGIN_IDLE_MSG];
        ptrace :=
          [ Called (OGoto "https://example.com/login" "domcontentloaded");
            Called (OPageFill "#user" "ada");
            Called (OPageFill "#pass" "from-env");
            Called (OPageClick "#go");
            Called (OWaitForLoadState "networkidle" 15000) ] |}).
Proof.
  apply (proj2 (login_steps (page := snapshot_page demo_answer)
                  (fun _ => Some "from-env") 15000 init_pstate)
               {| url := Some "https://example.com/login";
                  username_selector := "#user"; password_selector := "#pass";
                  submit_selector := "#go";
                  username := Some "ada"; password := None |}
               (Ok tt) (Ok tt) (Ok tt) (Ok tt)
               (Err (TimeoutError "Timeout 15000ms exceeded.")) tt tt tt tt tt);
    reflexivity.
Defined.

Lemma select_option_fallbacks_witness :
  exists st' tr,
    @_select_option_by_label_or_value unit (snapshot_page demo_answer)
      (Loc ThePage "select") "fra" init_pstate = (Ok tt, st') /\
    ptrace st' = Called (OSelectLabel (Loc ThePage "select") "fra") :: tr /\
    (length (collect clicked_locator tr) <= 1)%nat.
Proof.
  destruct (select_option_fallbacks (page := snapshot_page demo_answer)
              (Loc ThePage "select") "fra" init_pstate)
    as (st' & tr & Hrun & _ & Htr & Hn & _).
  exists st', tr. split; [exact Hrun|]. split; [exact Htr | exact Hn].
Defined.

(* ===================================================================== *)
(** * Page scripts: submitting *)
(* ===================================================================== *)

Lemma startswith_app (p r : string) : startswith p (p ++ r) = true.
Proof.
  induction p as [|c p IH]; [reflexivity|].
  change (startswith (String c p) (String c p ++ r))
    with (Ascii.eqb c c && startswith p (p ++ r)).
  now rewrite Ascii.eqb_refl, IH.
Qed.

Section Submit.
Context {World : Type} {page : Page World}.

Lemma wait_is_ask (submit : option SubmitHints) (timeout_ms : Z) :
  exists wop : PageOp unit,
    match submit with
    | Some h =>
        if nonempty (wait_selector h)
        then ask (OWaitForSelector (or_empty (wait_selector h)) timeout_ms)
        else ask (OWaitForLoadState "networkidle" timeout_ms)
    | None => ask (OWaitForLoadState "networkidle" timeout_ms)
    end = ask wop /\
    counted (Called wop) = None /\ clicked (Called wop) = None /\
    (wop = OWaitForLoadState "networkidle" timeout_ms \/
     exists sel, wop = OWaitForSelector sel timeout_ms).
Proof.
  destruct submit as [h|]; [destruct (nonempty (wait_selector h))|];
    eexists; (split; [reflexivity|]); (split; [reflexivity|]);
    (split; [reflexivity|]); eauto.
Qed.

Lemma submit_wait_ask (submit : option SubmitHints) (timeout_ms : Z) :
  match submit with
  | Some h =>
      if nonempty (wait_selector h)
      then ask (OWaitForSelector (or_empty (wait_selector h)) timeout_ms)
      else ask (OWaitForLoadState "networkidle" timeout_ms)
  | None => ask (OWaitForLoadState "networkidle" timeout_ms)
  end = ask (submit_wait submit timeout_ms) /\
  counted (Called (submit_wait submit timeout_ms)) = None.
Proof.
  unfold submit_wait.
  destruct submit as [h|]; [destruct (nonempty (wait_selector h))|];
    split; reflexivity.
Qed.

(** One pass of the loop body, [try] included. *)
Lemma guarded_attempt (submit : option SubmitHints) (timeout_ms : Z)
  (s : string) (st : PState World) :
  exists (tr : list PageCall) (nl : list string) (b : bool) st',
    ptry (submit_attempt submit timeout_ms s)
      (fun e =>
         plog ("Submit attempt failed for selector " ++ s ++ ": " ++ exc_str e)
         ~;; pret false) st
    = (Ok b, st') /\
    plogs st' = (plogs st ++ nl)%list /\
    Forall (fun m => startswith "Submit attempt failed for selector " m = true) nl /\
    (length nl <= 1)%nat /\
    ptrace st' = (ptrace st ++ Called (OCount (Loc ThePage s)) :: tr)%list /\
    collect counted tr = [] /\
    (b = true ->
     nl = [] /\
     Called (OCount (Loc ThePage s)) :: tr = submit_calls submit timeout_ms s /\
     attempt_succeeded submit timeout_ms s (pworld st) (pworld st')).
Proof.
  destruct (submit_wait_ask submit timeout_ms) as (Hw & Hwc).
  unfold submit_attempt. rewrite Hw. clear Hw.
  set (wop := submit_wait submit timeout_ms) in *.
  unfold ptry, pbind, pret, plog.
  assert (forall e : PyExc,
             Forall (fun m => startswith "Submit attempt failed for selector " m = true)
               ["Submit attempt failed for selector " ++ s ++ ": " ++ exc_str e])
    as Hmsg.
  { intros e. constructor; [apply startswith_app | constructor]. }
  unfold ask at 1.
  destruct (page_do _ (OCount (Loc ThePage s)) (pworld st)) as [[n|e] w1] eqn:H1;
    cbn [pworld plogs ptrace].
  2: { eexists [], [_], false, _. split; [reflexivity|]. cbn [plogs ptrace].
       repeat split; try reflexivity; try apply Hmsg; try discriminate. }
  destruct n as [|c]; cbn [Nat.ltb Nat.leb].
  { eexists [], [], false, _. split; [reflexivity|]. cbn [plogs ptrace].
    rewrite app_nil_r.
    repeat split; try reflexivity; try constructor; try discriminate.
    cbn; lia. }
  unfold ask at 1. cbn [pworld plogs ptrace].
  destruct (page_do _ (OIsVisible (First (Loc ThePage s))) w1) as [[v|e] w2] eqn:H2;
    cbn [pworld plogs ptrace].
  2: { eexists [_], [_], false, _. split; [reflexivity|]. cbn [plogs ptrace].
       rewrite <- app_assoc.
       repeat split; try reflexivity; try apply Hmsg; try discriminate. }
  destruct v.
  2: { eexists [_], [], false, _. split; [reflexivity|]. cbn [plogs ptrace].
       rewrite app_nil_r, <- app_assoc.
       repeat split; try reflexivity; try constructor; try discriminate.
       cbn; lia. }
  unfold ask at 1. cbn [pworld plogs ptrace].
  destruct (page_do _ (OClick (First (Loc ThePage s))) w2) as [[[]|e] w3] eqn:H3;
    cbn [pworld plogs ptrace].
  2: { eexists [_; _], [_], false, _. split; [reflexivity|]. cbn [plogs ptrace].
       rewrite <- !app_assoc.
       repeat split; try reflexivity; try apply Hmsg; try discriminate. }
  unfold ask at 1. cbn [pworld plogs ptrace].
  destruct (page_do _ wop w3) as [[[]|e] w4] eqn:H4; cbn [pworld plogs ptrace].
  - eexists [_; _; Called wop], [], true, _. split; [reflexivity|].
    cbn [plogs ptrace pworld]. rewrite app_nil_r, <- !app_assoc.
    split; [reflexivity|]. split; [constructor|]. split; [cbn; lia|].
    split; [reflexivity|]. split; [cbn [collect]; now rewrite Hwc|].
    intros _. split; [reflexivity|]. split; [reflexivity|].
    exists c, w1, w2, w3. repeat (split; [assumption|]). exact H4.
  - eexists [_; _; Called wop], [_], false, _. split; [reflexivity|].
    cbn [plogs ptrace]. rewrite <- !app_assoc.
    split; [reflexivity|]. split; [apply Hmsg|]. split; [cbn; lia|].
    split; [reflexivity|]. split; [cbn [collect]; now rewrite Hwc | discriminate].
Qed.

Lemma collect_counted_cons (s : string) (l : list PageCall) :
  collect counted (Called (OCount (Loc ThePage s)) :: l) = s :: collect counted l.
Proof. reflexivity. Qed.

Lemma submit_loop_run (submit : option SubmitHints) (timeout_ms : Z)
  (sels : list string) (st : PState World) :
  exists (b : bool) st' (tr : list PageCall) (nl : list string) (n : nat),
    submit_loop submit timeout_ms sels st = (Ok b, st') /\
    plogs st' = (plogs st ++ nl)%list /\
    Forall (fun m => startswith "Submit attempt failed for selector " m = true) nl /\
    ptrace st' = (ptrace st ++ tr)%list /\
    collect counted tr = firstn n sels /\
    (n <= length sels)%nat /\ (length nl <= n)%nat /\
    (b = false -> n = length sels) /\
    (b = true ->
     (length nl < n)%nat /\
     exists (s : string) (pre : list PageCall) (w0 : World),
       sels !! (n - 1)%nat = Some s /\
       tr = (pre ++ submit_calls submit timeout_ms s)%list /\
       attempt_succeeded submit timeout_ms s w0 (pworld st')).
Proof.
  revert st. induction sels as [|s rest IH]; intros st.
  - exists false, st, [], [], 0%nat. rewrite !app_nil_r.
    repeat split; try constructor; try discriminate.
  - cbn [submit_loop]. unfold pbind at 1.
    destruct (guarded_attempt submit timeout_ms s st)
      as (tr1 & nl1 & b1 & st1 & -> & Hl1 & Hf1 & Hn1 & Ht1 & Hc1 & Hb1).
    destruct b1.
    + destruct (Hb1 eq_refl) as (-> & Htr & Hok).
      exists true, st1, (Called (OCount (Loc ThePage s)) :: tr1), [], 1%nat.
      split; [reflexivity|]. split; [exact Hl1|]. split; [constructor|].
      split; [exact Ht1|]. split; [now rewrite collect_counted_cons, Hc1|].
      split; [cbn; lia|]. split; [cbn; lia|]. split; [discriminate|].
      intros _. split; [cbn; lia|].
      exists s, [], (pworld st).
      split; [reflexivity|]. split; [exact Htr | exact Hok].
    + destruct (IH st1)
        as (b & st2 & tr2 & nl2 & n & Hrun & Hl2 & Hf2 & Ht2 & Hc2 & Hn2 & Hln2
            & Hfalse & Htrue).
      exists b, st2, (Called (OCount (Loc ThePage s)) :: tr1 ++ tr2)%list,
        (nl1 ++ nl2)%list, (S n).
      split; [exact Hrun|].
      split; [now rewrite Hl2, Hl1, app_assoc|].
      split; [now apply Forall_app|].
      split; [rewrite Ht2, Ht1, <- app_assoc; reflexivity|].
      split.
      { rewrite collect_counted_cons, collect_app, Hc1, Hc2. reflexivity. }
      split; [cbn; lia|]. split; [rewrite length_app; lia|].
      split; [intros Hb; cbn; now rewrite (Hfalse Hb)|].
      intros Hb. destruct (Htrue Hb) as (Hlt & s' & pre & w0 & Hs' & -> & Hok).
      split; [rewrite length_app; lia|].
      exists s', (Called (OCount (Loc ThePage s)) :: tr1 ++ pre)%list, w0.
      split; [|split; [|exact Hok]].
      * destruct n as [|n]; [lia|].
        replace (S (S n) - 1)%nat with (S n) by lia.
        replace (S n - 1)%nat with n in Hs' by lia. exact Hs'.
      * cbn [app]. now rewrite <- !app_assoc.
Qed.

(** X14: submitting never raises.  The candidate selectors (the caller's
    own selector first, when given, then the six built-in ones) are
    probed in order, and only log entries that report a failed attempt
    are added, at most one for each selector probed.  [False] is returned
    only after every candidate has been probed.  When [True] is returned
    the history ends with the four calls on the candidate probed last
    (count, visibility, click, then the wait for the caller's wait
    selector or else for an idle network), the driver answered them with
    a positive count, visible, and a click and a wait that did not raise,
    each call made in the world the previous one left, and the world
    after the wait is the final one. *)
Theorem submit_probes_in_order (submit : option SubmitHints) (timeout_ms : Z)
  (st : PState World) :
  exists (b : bool) st' (tr : list PageCall) (nl : list string) (n : nat),
    _submit_if_possible submit timeout_ms st = (Ok b, st') /\
    plogs st' = (plogs st ++ nl)%list /\
    Forall (fun m => startswith "Submit attempt failed for selector " m = true) nl /\
    ptrace st' = (ptrace st ++ tr)%list /\
    collect counted tr = firstn n (submit_selectors submit) /\
    (n <= length (submit_selectors submit))%nat /\ (length nl <= n)%nat /\
    (b = false -> n = length (submit_selectors submit)) /\
    (b = true ->
     (length nl < n)%nat /\
     exists (s : string) (pre : list PageCall) (w0 : World) (c : nat)
            (w1 w2 w3 : World),
       submit_selectors submit !! (n - 1)%nat = Some s /\
       tr = (pre ++ [ Called (OCount (Loc ThePage s));
                      Called (OIsVisible (First (Loc ThePage s)));
                      Called (OClick (First (Loc ThePage s)));
                      Called (submit_wait submit timeout_ms) ])%list /\
       page_do _ (OCount (Loc ThePage s)) w0 = (Ok (S c), w1) /\
       page_do _ (OIsVisible (First (Loc ThePage s))) w1 = (Ok true, w2) /\
       page_do _ (OClick (First (Loc ThePage s))) w2 = (Ok tt, w3) /\
       page_do _ (submit_wait submit timeout_ms) w3 = (Ok tt, pworld st')).
Proof.
  destruct (submit_loop_run submit timeout_ms (submit_selectors submit) st)
    as (b & st' & tr & nl & n & Hrun & Hl & Hf & Ht & Hc & Hn & Hln & Hfalse
        & Htrue).
  exists b, st', tr, nl, n. repeat (split; [assumption|]).
  intros Hb. destruct (Htrue Hb) as (Hlt & s & pre & w0 & Hs & Htr & Hok).
  destruct Hok as (c & w1 & w2 & w3 & H1 & H2 & H3 & H4).
  split; [exact Hlt|]. exists s, pre, w0, c, w1, w2, w3.
  repeat (split; [assumption|]). exact H4.
Qed.

(** When the caller gives a non-empty selector it is the first one
    probed, ahead of the six built-in selectors. *)
Lemma submit_selectors_custom_first (s ws : option string) :
  nonempty s = true ->
  submit_selectors (Some {| selector := s; wait_selector := ws |})
  = (or_empty s :: submit_selectors None)%list.
Proof. intros Hs. unfold submit_selectors. cbn [selector]. now rewrite Hs. Qed.

Section AlwaysTimingOut.
Hypothesis count_positive :
  forall s w, exists n w', page_do _ (OCount (Loc ThePage s)) w = (Ok (S n), w').
Hypothesis always_visible :
  forall s w, exists w', page_do _ (OIsVisible (First (Loc ThePage s))) w = (Ok true, w').
Hypothesis click_accepted :
  forall s w, exists w', page_do _ (OClick (First (Loc ThePage s))) w = (Ok tt, w').
Hypothesis waits_raise :
  forall (wop : PageOp unit) w,
    (exists state t, wop = OWaitForLoadState state t) \/
    (exists sel t, wop = OWaitForSelector sel t) ->
    exists e w', page_do _ wop w = (Err e, w').

Lemma loop_clicks_all (submit : option SubmitHints) (timeout_ms : Z)
  (sels : list string) (st : PState World) :
  exists st' (tr : list PageCall) (nl : list string),
    submit_loop submit timeout_ms sels st = (Ok false, st') /\
    ptrace st' = (ptrace st ++ tr)%list /\
    collect clicked tr = sels /\
    plogs st' = (plogs st ++ nl)%list /\ length nl = length sels.
Proof.
  destruct (wait_is_ask submit timeout_ms) as (wop & Hw & _ & Hwk & Hkind).
  revert st. induction sels as [|s rest IH]; intros st.
  - exists st, [], []. rewrite !app_nil_r. repeat split.
  - cbn [submit_loop]. unfold pbind at 1, ptry, submit_attempt.
    rewrite Hw. unfold pbind, pret, plog.
    unfold ask at 1.
    destruct (count_positive s (pworld st)) as (n & w1 & ->).
    cbn [Nat.ltb Nat.leb pworld plogs ptrace].
    unfold ask at 1. cbn [pworld plogs ptrace].
    destruct (always_visible s w1) as (w2 & ->). cbn [pworld plogs ptrace].
    unfold ask at 1. cbn [pworld plogs ptrace].
    destruct (click_accepted s w2) as (w3 & ->). cbn [pworld plogs ptrace].
    unfold ask at 1. cbn [pworld plogs ptrace].
    destruct (waits_raise wop w3) as (e & w4 & ->).
    { destruct Hkind as [-> | [sel ->]]; [left | right]; eauto. }
    cbn [pworld plogs ptrace].
    match goal with |- context [submit_loop _ _ rest ?s1] =>
      destruct (IH s1) as (st' & tr & nl & -> & Ht & Hc & Hl & Hn) end.
    cbn [ptrace plogs] in Ht, Hl.
    eexists st', _, (_ :: nl). split; [reflexivity|].
    split; [rewrite Ht, <- !app_assoc; reflexivity|]. split.
    { cbn [collect app]. rewrite Hwk. cbn [clicked]. now rewrite Hc. }
    split; [rewrite Hl, <- app_assoc; reflexivity | cbn; now rewrite Hn].
Qed.

(** X15: a click whose wait raises counts as a failed attempt and the
    loop goes on to the next selector.  On a page where every candidate
    button is present, visible and clickable while every wait raises,
    every candidate is clicked, in order, one failure is logged for each,
    and the result is [False]. *)
Theorem submit_clicks_every_candidate (submit : option SubmitHints)
  (timeout_ms : Z) (st : PState World) :
  exists st' (tr : list PageCall) (nl : list string),
    _submit_if_possible submit timeout_ms st = (Ok false, st') /\
    ptrace st' = (ptrace st ++ tr)%list /\
    collect clicked tr = submit_selectors submit /\
    plogs st' = (plogs st ++ nl)%list /\
    length nl = length (submit_selectors submit).
Proof. apply loop_clicks_all. Qed.
End AlwaysTimingOut.
End Submit.

Lemma submit_probes_in_order_witness :
  exists (b : bool) st' (tr : list PageCall) (n : nat),
    @_submit_if_possible unit (snapshot_page demo_answer)
      (Some {| selector := Some "#send"; wait_selector := None |}) 15000
      init_pstate = (Ok b, st') /\
    collect counted tr
    = firstn n (submit_selectors
                  (Some {| selector := Some "#send"; wait_selector := None |})) /\
    (b = false -> n = 7%nat).
Proof.
  destruct (submit_probes_in_order (page := snapshot_page demo_answer)
              (Some {| selector := Some "#send"; wait_selector := None |})
              15000 init_pstate)
    as (b & st' & tr & nl & n & Hrun & _ & _ & _ & Hc & _ & _ & Hf & _).
  exists b, st', tr, n. split; [exact Hrun|]. split; [exact Hc | exact Hf].
Defined.

Lemma submit_clicks_every_candidate_witness :
  exists st' (tr : list PageCall) (nl : list string),
    @_submit_if_possible unit (snapshot_page demo_answer) None 15000 init_pstate
    = (Ok false, st') /\
    collect clicked tr = submit_selectors None /\
    length nl = 6%nat.
Proof.
  destruct (submit_clicks_every_candidate (page := snapshot_page demo_answer))
    with (submit := @None SubmitHints) (timeout_ms := 15000%Z) (st := init_pstate)
    as (st' & tr & nl & Hrun & _ & Hc & _ & Hn).
  - intros s w. exists 1%nat, w. reflexivity.
  - intros s w. exists w. reflexivity.
  - intros s w. exists w. reflexivity.
  - intros wop w [(state & t & ->) | (sel & t & ->)];
      exists (TimeoutError "Timeout 15000ms exceeded."), w; reflexivity.
  - exists st', tr, nl. split; [exact Hrun|]. split; [exact Hc | exact Hn].
Defined.

(* ===================================================================== *)
(** * Page scripts: discovery *)
(* ===================================================================== *)

Lemma meta_shape (f : Scope) (i : nat) (name tag typ text preview : string) :
  strip text = text ->
  discovered_shape
    (RScope f, RLoc (Nth (controls_of f) i),
     <["frame" := if String.eqb name "" then "main" else name]>
     (<["tag" := tag]>
     (<["type" := typ]>
     (<["text" := text]>
     (<["selector_preview" := preview]> ∅))))).
Proof.
  intros Htext. exists f, i. cbn [fst snd].
  split; [reflexivity|]. split; [reflexivity|]. split; [|split].
  - rewrite !dom_insert_L, dom_empty_L. unfold META_KEYS. set_solver.
  - unfold meta_get. rewrite lookup_insert_eq. cbn [default].
    destruct (String.eqb_spec name ""); [discriminate | assumption].
  - unfold meta_get.
    rewrite lookup_insert_ne by discriminate.
    rewrite lookup_insert_ne by discriminate.
    rewrite lookup_insert_ne by discriminate.
    rewrite lookup_insert_eq. exact Htext.
Qed.

Section Discovery.
Context {World : Type} {page : Page World}.

Local Abbreviation ditem := (Ref * Ref * gmap string string)%type.

Lemma pfilter_map_inv {A B} (body : A -> P World (option B)) (Inv : B -> Prop) :
  (forall x st,
      plogs (snd (body x st)) = plogs st /\
      forall y, fst (body x st) = Ok (Some y) -> Inv y) ->
  forall xs st,
    plogs (snd (pfilter_map body xs st)) = plogs st /\
    forall ys, fst (pfilter_map body xs st) = Ok ys -> Forall Inv ys.
Proof.
  intros Hbody xs. induction xs as [|x xs IH]; intros st.
  - split; [reflexivity|]. intros ys [= <-]. constructor.
  - cbn [pfilter_map]. unfold pbind, pret.
    destruct (Hbody x st) as [Hl Hy].
    destruct (body x st) as [[r|e] st1]; cbn [fst snd] in *; [|now split].
    destruct (IH st1) as [Hl2 Hys].
    destruct (pfilter_map body xs st1) as [[ys|e] st2]; cbn [fst snd] in *.
    + split; [congruence|]. intros zs [= <-].
      destruct r as [y|]; [constructor|]; auto.
    + split; [congruence | discriminate].
Qed.

Lemma pconcat_map_inv {A B} (body : A -> P World (list B)) (Inv : B -> Prop) :
  (forall x st,
      plogs (snd (body x st)) = plogs st /\
      forall ys, fst (body x st) = Ok ys -> Forall Inv ys) ->
  forall xs st,
    plogs (snd (pconcat_map body xs st)) = plogs st /\
    forall ys, fst (pconcat_map body xs st) = Ok ys -> Forall Inv ys.
Proof.
  intros Hbody xs. induction xs as [|x xs IH]; intros st.
  - split; [reflexivity|]. intros ys [= <-]. constructor.
  - cbn [pconcat_map]. unfold pbind, pret.
    destruct (Hbody x st) as [Hl Hy].
    destruct (body x st) as [[r|e] st1]; cbn [fst snd] in *; [|now split].
    destruct (IH st1) as [Hl2 Hys].
    destruct (pconcat_map body xs st1) as [[ys|e] st2]; cbn [fst snd] in *.
    + split; [congruence|]. intros zs [= <-]. apply Forall_app. auto.
    + split; [congruence | discriminate].
Qed.

Lemma describe_element_inv (f : Scope) (i : nat) (tag : string)
  (st : PState World) :
  plogs (snd (describe_element f (Nth (controls_of f) i) tag st)) = plogs st /\
  forall it,
    fst (describe_element f (Nth (controls_of f) i) tag st) = Ok (Some it) ->
    discovered_shape it.
Proof.
  unfold describe_element, pbind, pret.
  pose proof (ask_effect (OGetAttribute (Nth (controls_of f) i) "type") st)
    as [Hl2 _].
  destruct (ask (OGetAttribute (Nth (controls_of f) i) "type") st)
    as [[typ|e2] st2]; cbn [fst snd] in *; [|split; [assumption | discriminate]].
  pose proof (ask_effect (OFrameName f) st2) as [Hl3 _].
  destruct (ask (OFrameName f) st2) as [[name|e3] st3]; cbn [fst snd] in *;
    [|split; [congruence | discriminate]].
  destruct (candidate_text_run (Nth (controls_of f) i) st3)
    as (text & st4 & -> & Hl4 & _ & Hstrip & _).
  pose proof (ask_effect (OEvalStr (Nth (controls_of f) i)
                            "e=>e.outerHTML.slice(0,200)") st4) as [Hl5 _].
  destruct (ask (OEvalStr (Nth (controls_of f) i)
                   "e=>e.outerHTML.slice(0,200)") st4) as [[pv|e5] st5];
    cbn [fst snd] in *; [|split; [congruence | discriminate]].
  split; [congruence|]. intros it [= <-]. now apply meta_shape.
Qed.

Lemma discover_element_inv (f : Scope) (i : nat) (st : PState World) :
  plogs (snd (discover_element f i st)) = plogs st /\
  forall it, fst (discover_element f i st) = Ok (Some it) -> discovered_shape it.
Proof.
  unfold discover_element, ptry, pbind, pret.
  pose proof (ask_effect (OIsVisible (Nth (controls_of f) i)) st) as [Hl0 _].
  destruct (ask (OIsVisible (Nth (controls_of f) i)) st) as [[[|]|e0] st0];
    cbn [fst snd] in *; try (split; [assumption | discriminate]).
  pose proof (ask_effect (OEvalStr (Nth (controls_of f) i)
                            "e=>e.tagName.toLowerCase()") st0) as [Hl1 _].
  destruct (ask (OEvalStr (Nth (controls_of f) i)
                   "e=>e.tagName.toLowerCase()") st0) as [[tag0|etag] st1];
    cbn [snd] in Hl1.
  - destruct (describe_element_inv f i tag0 st1) as [Hl Hshape].
    split; [congruence | exact Hshape].
  - destruct (describe_element_inv f i "" st1) as [Hl Hshape].
    split; [congruence | exact Hshape].
Qed.

Lemma discover_frame_inv (f : Scope) (st : PState World) :
  plogs (snd (discover_frame f st)) = plogs st /\
  forall its, fst (discover_frame f st) = Ok its -> Forall discovered_shape its.
Proof.
  unfold discover_frame, ptry, pbind, pret.
  pose proof (ask_effect (OCount (controls_of f)) st) as [Hl _].
  destruct (ask (OCount (controls_of f)) st) as [[n|e] st1]; cbn [snd] in Hl.
  - destruct (pfilter_map_inv (discover_element f) discovered_shape
                (discover_element_inv f) (seq 0 n) st1) as [Hl2 Hinv].
    split; [congruence | exact Hinv].
  - destruct (pfilter_map_inv (discover_element f) discovered_shape
                (discover_element_inv f) (seq 0 0) st1) as [Hl2 Hinv].
    split; [congruence | exact Hinv].
Qed.

(** X16: discovery never touches the log, and every item it returns is a
    frame together with the i-th control of that frame's control locator
    and a [meta] that has exactly the keys frame, tag, type, text and
    selector_preview, a non-empty frame name ("main" replacing an empty
    one) and a stripped text. *)
Theorem discover_items_well_formed (st : PState World) :
  plogs (snd (_discover_fields st)) = plogs st /\
  forall items,
    fst (_discover_fields st) = Ok items -> Forall discovered_shape items.
Proof.
  unfold _discover_fields, pbind.
  pose proof (ask_effect OFrames st) as [Hl _].
  destruct (ask OFrames st) as [[fs|e] st1]; cbn [fst snd] in *;
    [|split; [assumption | discriminate]].
  destruct (pconcat_map_inv discover_frame discovered_shape discover_frame_inv
              (ThePage :: map AFrame fs) st1) as [Hl2 Hinv].
  split; [congruence | exact Hinv].
Qed.

(** X17: the read of the type attribute is outside every [try]: when it
    raises for the first control of the page, that control being visible,
    discovery as a whole raises that exception right there, returning no
    item at all. *)
Theorem discover_unguarded_type_read (st : PState World) (fs : list nat)
  (n : nat) (rt : Result string) (e : PyExc) (w1 w2 w3 w4 w5 : World) :
  let el := Nth (controls_of ThePage) 0 in
  page_do _ OFrames (pworld st) = (Ok fs, w1) ->
  page_do _ (OCount (controls_of ThePage)) w1 = (Ok (S n), w2) ->
  page_do _ (OIsVisible el) w2 = (Ok true, w3) ->
  page_do _ (OEvalStr el "e=>e.tagName.toLowerCase()") w3 = (rt, w4) ->
  page_do _ (OGetAttribute el "type") w4 = (Err e, w5) ->
  _discover_fields st
  = (Err e,
     {| pworld := w5; plogs := plogs st;
        ptrace := ptrace st ++
                  [Called OFrames; Called (OCount (controls_of ThePage));
                   Called (OIsVisible el);
                   Called (OEvalStr el "e=>e.tagName.toLowerCase()");
                   Called (OGetAttribute el "type")] |}).
Proof.
  intros el H1 H2 H3 H4 H5.
  unfold _discover_fields. unfold pbind at 1. unfold ask at 1. rewrite H1.
  cbn [pconcat_map]. unfold pbind at 1. unfold discover_frame.
  unfold pbind at 1, ptry. unfold ask at 1. cbn [pworld plogs ptrace].
  rewrite H2. cbn [seq pfilter_map]. unfold pbind at 1.
  unfold discover_element. fold el. unfold pbind at 1, ptry.
  unfold pbind at 1. unfold ask at 1. cbn [pworld plogs ptrace]. rewrite H3.
  unfold pret at 1. unfold pbind at 1. unfold ask at 1.
  cbn [pworld plogs ptrace]. rewrite H4.
  assert (forall s0,
             (let (r, st') :=
                match rt with
                | Ok a => (Ok a, s0)
                | Err e0 => (fun _ : PyExc => pret "") e0 s0
                end in
              match r with
              | Ok a => describe_element ThePage el a st'
              | Err e0 => (Err e0, st')
              end)
             = describe_element ThePage el
                 (match rt with Ok a => a | Err _ => "" end) s0) as Htag
      by (intros s0; now destruct rt).
  rewrite Htag. unfold describe_element. unfold pbind at 1. unfold ask at 1.
  cbn [pworld plogs ptrace]. rewrite H5.
  rewrite <- !app_assoc. reflexivity.
Qed.
End Discovery.

Section SnapshotDiscovery.
Variable answer : forall A, PageOp A -> Result A.

Local Abbreviation snap := (snapshot_page answer).

Lemma snapshot_ask {A} (op : PageOp A) (st : PState unit) :
  @ask unit snap A op st
  = (answer A op,
     {| pworld := pworld st; plogs := plogs st;
        ptrace := ptrace st ++ [Called op] |}).
Proof. unfold ask, page_do, snapshot_page. reflexivity. Qed.

Lemma snapshot_element (f : Scope) (i : nat) (st : PState unit) :
  (is_ok_true (answer _ (OIsVisible (Nth (controls_of f) i))) = false ->
   exists st', @discover_element unit snap f i st = (Ok None, st')) /\
  (is_ok_true (answer _ (OIsVisible (Nth (controls_of f) i))) = true ->
   unguarded_ok answer f i ->
   exists meta st',
     @discover_element unit snap f i st
     = (Ok (Some (RScope f, RLoc (Nth (controls_of f) i), meta)), st')).
Proof.
  unfold discover_element, ptry, pbind, pret. rewrite snapshot_ask.
  destruct (answer _ (OIsVisible (Nth (controls_of f) i))) as [[|]|e];
    cbn [is_ok_true].
  2, 3: split; [intros _; eexists; reflexivity | discriminate].
  split; [discriminate|]. intros _ ((typ & Htyp) & (name & Hname) & (pv & Hpv)).
  rewrite snapshot_ask.
  assert (forall tag s1, exists meta st',
             @describe_element unit snap f (Nth (controls_of f) i) tag s1
             = (Ok (Some (RScope f, RLoc (Nth (controls_of f) i), meta)), st'))
    as Hdesc.
  { intros tag s1. unfold describe_element, pbind, pret.
    rewrite snapshot_ask, Htyp, snapshot_ask, Hname.
    match goal with |- context [_candidate_text ?el ?s] =>
      destruct (candidate_text_run (page := snap) el s)
        as (text & s4 & -> & _) end.
    rewrite snapshot_ask, Hpv. eexists _, _. reflexivity. }
  destruct (answer _ (OEvalStr (Nth (controls_of f) i)
                        "e=>e.tagName.toLowerCase()")); apply Hdesc.
Qed.

Lemma snapshot_elements (f : Scope) (indices : list nat) (st : PState unit) :
  (forall i, is_ok_true (answer _ (OIsVisible (Nth (controls_of f) i))) = true ->
             unguarded_ok answer f i) ->
  exists items st',
    @pfilter_map unit _ _ (@discover_element unit snap f) indices st
    = (Ok items, st') /\
    map fst items
    = map (fun i => (RScope f, RLoc (Nth (controls_of f) i)))
        (List.filter
           (fun i => is_ok_true (answer _ (OIsVisible (Nth (controls_of f) i))))
           indices).
Proof.
  intros Hok. revert st. induction indices as [|i rest IH]; intros st.
  - exists [], st. split; reflexivity.
  - cbn [pfilter_map List.filter]. unfold pbind at 1.
    destruct (snapshot_element f i st) as [Hhid Hvis].
    destruct (is_ok_true (answer _ (OIsVisible (Nth (controls_of f) i)))) eqn:Hv.
    + destruct (Hvis eq_refl (Hok i Hv)) as (meta & st1 & ->).
      destruct (IH st1) as (items & st2 & Hrun & Hmap).
      exists ((RScope f, RLoc (Nth (controls_of f) i), meta) :: items), st2.
      unfold pbind, pret. rewrite Hrun. split; [reflexivity|].
      cbn [map fst]. now rewrite Hmap.
    + destruct (Hhid eq_refl) as (st1 & ->).
      destruct (IH st1) as (items & st2 & Hrun & Hmap).
      exists items, st2. unfold pbind, pret. rewrite Hrun. now split.
Qed.

Lemma snapshot_frame (f : Scope) (st : PState unit) :
  (forall i, is_ok_true (answer _ (OIsVisible (Nth (controls_of f) i))) = true ->
             unguarded_ok answer f i) ->
  exists items st',
    @discover_frame unit snap f st = (Ok items, st') /\
    map fst items = visible_controls answer f.
Proof.
  intros Hok. unfold discover_frame, visible_controls, snapshot_count.
  unfold pbind at 1, ptry, pret. rewrite snapshot_ask.
  destruct (answer _ (OCount (controls_of f))) as [n|e];
    apply snapshot_elements, Hok.
Qed.

(** X18: on a page that answers consistently, when the frame list can be
    read and the three unguarded reads (type attribute, frame name, outer
    HTML) answer for every visible control, discovery returns exactly the
    visible controls: first those of the page, then those of each frame in
    the order of the frame list, each in index order.  A control whose
    visibility check answers false or raises is skipped, and a frame whose
    count raises contributes nothing. *)
Theorem discover_enumerates_visible (fs : list nat) (st : PState unit) :
  answer _ OFrames = Ok fs ->
  (forall f i,
      is_ok_true (answer _ (OIsVisible (Nth (controls_of f) i))) = true ->
      unguarded_ok answer f i) ->
  exists items st',
    @_discover_fields unit snap st = (Ok items, st') /\
    map fst items
    = flat_map (visible_controls answer) (ThePage :: map AFrame fs).
Proof.
  intros Hfs Hok. unfold _discover_fields. unfold pbind at 1.
  rewrite snapshot_ask, Hfs.
  generalize (ThePage :: map AFrame fs). intros scopes.
  match goal with |- context [pconcat_map _ _ ?s] => generalize s end.
  induction scopes as [|f scopes IH]; intros s0.
  - exists [], s0. split; reflexivity.
  - cbn [pconcat_map flat_map]. unfold pbind at 1.
    destruct (snapshot_frame f s0 (Hok f)) as (its & s1 & -> & Hmap).
    destruct (IH s1) as (items & s2 & Hrun & Hmap2).
    exists (its ++ items)%list, s2. unfold pbind, pret. rewrite Hrun.
    split; [reflexivity|]. now rewrite map_app, Hmap, Hmap2.
Qed.
End SnapshotDiscovery.

Lemma discover_unguarded_type_read_witness :
  exists st',
    @_discover_fields unit (snapshot_page typeless_answer) init_pstate
    = (Err (OtherError "Element is not attached to the DOM"), st') /\
    length (ptrace st') = 5%nat.
Proof.
  eexists. split.
  - apply (discover_unguarded_type_read (page := snapshot_page typeless_answer)
             init_pstate [] 1%nat (Ok "input")
             (OtherError "Element is not attached to the DOM") tt tt tt tt tt);
      reflexivity.
  - reflexivity.
Defined.

Lemma discover_enumerates_visible_witness :
  exists items st',
    @_discover_fields unit (snapshot_page demo_answer) init_pstate
    = (Ok items, st') /\
    map fst items
    = [(RScope ThePage, RLoc (Nth (controls_of ThePage) 0))].
Proof.
  destruct (discover_enumerates_visible demo_answer [] init_pstate eq_refl)
    as (items & st' & Hrun & Hmap).
  - intros f i _. repeat split; eexists; reflexivity.
  - exists items, st'. split; [exact Hrun | exact Hmap].
Defined.


Lemma discover_items_well_formed_witness :
  exists items,
    fst (@_discover_fields unit (snapshot_page demo_answer) init_pstate) = Ok items /\
    Forall discovered_shape items.
Proof.
  pose proof (proj2 (discover_items_well_formed (page := snapshot_page demo_answer)
                       init_pstate)) as Hshape.
  destruct (fst (@_discover_fields unit (snapshot_page demo_answer) init_pstate))
    as [items|e] eqn:Hrun.
  - exists items. split; [reflexivity | now apply Hshape].
  - vm_compute in Hrun. discriminate Hrun.
Defined.

(* ===================================================================== *)
(** * Word boundaries *)
(* ===================================================================== *)

Lemma append_empty_r (s : string) : s ++ "" = s.
Proof.
  induction s as [|c s IH]; [reflexivity|].
  change (String c s ++ "") with (String c (s ++ "")). now rewrite IH.
Qed.

Lemma append_length (a b : string) :
  String.length (a ++ b) = (String.length a + String.length b)%nat.
Proof.
  induction a as [|c a IH]; [reflexivity|].
  change (String c a ++ b) with (String c (a ++ b)).
  cbn [String.length]. now rewrite IH.
Qed.

Lemma string_forall_app (p : ascii -> bool) (a b : string) :
  string_forall p (a ++ b) = string_forall p a && string_forall p b.
Proof.
  induction a as [|c a IH]; [reflexivity|].
  change (String c a ++ b) with (String c (a ++ b)).
  cbn [string_forall]. now rewrite IH, andb_assoc.
Qed.

Lemma string_forall_last (p : ascii -> bool) (s : string) (c : ascii) :
  string_forall p s = true -> last_char s = Some c -> p c = true.
Proof.
  induction s as [|x s IH]; [discriminate|].
  cbn [string_forall]. intros [Hx Hs]%andb_prop.
  destruct s as [|y s]; [now intros [= <-] | intros Hl; now apply IH].
Qed.

Lemma last_char_cons (a : ascii) (s : string) :
  last_char (String a s)
  = Some (match last_char s with Some c => c | None => a end).
Proof.
  revert a. induction s as [|y s IH]; intros a; [reflexivity|].
  change (last_char (String a (String y s))) with (last_char (String y s)).
  now rewrite IH.
Qed.

Lemma match_literal_spec (lit s : string) (prev last : option ascii)
  (rest : string) :
  match_literal lit s prev = Some (last, rest) ->
  s = lit ++ rest /\
  last = match last_char lit with Some c => Some c | None => prev end.
Proof.
  revert s prev. induction lit as [|a lit IH]; intros s prev.
  - intros [= <- <-]. now split.
  - destruct s as [|b s]; [discriminate|]. cbn [match_literal].
    destruct (Ascii.eqb_spec a b) as [<- | Hne]; [|discriminate].
    intros [-> ->]%IH. split; [reflexivity|].
    rewrite last_char_cons. now destruct (last_char lit).
Qed.

Lemma match_literal_app (lit rest : string) (prev : option ascii) :
  match_literal lit (lit ++ rest) prev
  = Some (match last_char lit with Some c => Some c | None => prev end, rest).
Proof.
  revert prev. induction lit as [|a lit IH]; intros prev; [reflexivity|].
  change (String a lit ++ rest) with (String a (lit ++ rest)).
  cbn [match_literal]. rewrite Ascii.eqb_refl, IH, last_char_cons.
  now destruct (last_char lit).
Qed.

Section SingleWord.
Variable alts : list string.
Hypothesis alts_nonempty : ~ In "" alts.

(** Past a word character, inside a text made of word characters only,
    no alternative can start. *)
Lemma no_match_inside (p : ascii) (s : string) :
  is_word p = true -> string_forall is_word s = true ->
  search_from alts (Some p) s = false.
Proof.
  revert p. induction s as [|c s IH]; intros p Hp Hs.
  - cbn [search_from]. rewrite orb_false_r. unfold match_here.
    unfold boundary at 1. cbn [head_char wordb]. rewrite Hp. cbn [xorb andb].
    apply not_true_is_false. intros (lit & Hin & Hm)%existsb_exists.
    destruct lit as [|a lit]; [contradiction | discriminate Hm].
  - cbn [string_forall] in Hs. apply andb_prop in Hs as [Hc Hs].
    cbn [search_from]. rewrite (IH c Hc Hs), orb_false_r.
    unfold match_here. unfold boundary at 1. cbn [head_char wordb].
    now rewrite Hp, Hc.
Qed.

Lemma match_at_start (t : string) :
  t <> "" -> string_forall is_word t = true ->
  match_here alts None t = existsb (String.eqb t) alts.
Proof.
  intros Ht Hw. unfold match_here.
  destruct t as [|c t'] eqn:Et; [congruence|]. rewrite <- Et in *.
  assert (boundary None (head_char t) = true) as ->.
  { subst t. cbn [string_forall] in Hw. apply andb_prop in Hw as [Hc _].
    unfold boundary. cbn [head_char wordb xorb]. exact Hc. }
  cbn [andb]. clear Et c t'.
  induction alts as [|lit rest IH]; [reflexivity|].
  cbn [existsb]. rewrite IH by (intros Hin; apply alts_nonempty; now right).
  f_equal.
  assert (lit <> "") as Hlit by (intros ->; apply alts_nonempty; now left).
  destruct (match_literal lit t None) as [[last tl]|] eqn:Hm.
  - apply match_literal_spec in Hm as [-> ->].
    rewrite string_forall_app in Hw. apply andb_prop in Hw as [Hwl Hwt].
    destruct (last_char lit) as [cl|] eqn:Hl;
      [|destruct lit; [congruence | now rewrite last_char_cons in Hl]].
    unfold boundary. cbn [wordb]. rewrite (string_forall_last _ _ _ Hwl Hl).
    destruct tl as [|x tl].
    + rewrite append_empty_r, String.eqb_refl. reflexivity.
    + cbn [string_forall] in Hwt. apply andb_prop in Hwt as [Hx _].
      cbn [head_char wordb xorb]. rewrite Hx. cbn. symmetry.
      apply String.eqb_neq. intros Heq.
      apply (f_equal String.length) in Heq. rewrite append_length in Heq.
      cbn [String.length] in Heq. lia.
  - symmetry. apply String.eqb_neq. intros <-.
    pose proof (match_literal_app t "" None) as Ha.
    rewrite append_empty_r in Ha. rewrite Ha in Hm. discriminate Hm.
Qed.

(** X19: on a text that is a single word (non-empty, made of letters,
    digits and underscores only) a rule [\b(w1|w2|...)\b] fires exactly
    when the whole text is one of its words: a word of the rule occurring
    inside a longer word, as "phone" in "telephone" or "zip" in "zipcode"
    or "first" in "first_name", does not make it fire. *)
Theorem single_word_rule (t : string) :
  t <> "" -> string_forall is_word t = true ->
  (re_search_words alts t = true <-> In t alts).
Proof.
  intros Ht Hw. unfold re_search_words.
  assert (search_from alts None t = existsb (String.eqb t) alts) as ->.
  { destruct t as [|c t'] eqn:Et; [congruence|].
    cbn [search_from]. rewrite <- Et.
    rewrite (match_at_start t) by (subst t; assumption || congruence).
    subst t. cbn [string_forall] in Hw. apply andb_prop in Hw as [Hc Hs].
    now rewrite (no_match_inside c t' Hc Hs), orb_false_r. }
  rewrite existsb_exists. split.
  - intros (x & Hin & ->%String.eqb_eq). exact Hin.
  - intros Hin. exists t. split; [exact Hin | apply String.eqb_refl].
Qed.
End SingleWord.

Lemma single_word_rule_witness :
  re_search_words ["phone"; "mobile"; "cell"; "tel"] "telephone" = true
  <-> In "telephone" ["phone"; "mobile"; "cell"; "tel"].
Proof.
  apply (single_word_rule ["phone"; "mobile"; "cell"; "tel"]).
  - cbn. intros [H | [H | [H | [H | []]]]]; discriminate H.
  - discriminate.
  - reflexivity.
Defined.
